(** * RediSearch default extension: scorers and query expanders

    A shallow embedding of [src/ext/default.c]: the TF-IDF, BM25, DisMax,
    document-score and Hamming scorers over the result tree, and the
    synonym / phonetic / stemmer token expanders with their default
    combinator.

    C [double] is IEEE binary64, embedded as Rocq's primitive [float];
    integers are [Z], converted with [of_Z] where C converts implicitly.
    The explain side channel is a log of the operations the code performs on
    [ScoreExplain] nodes, threaded through a small writer monad. *)

From Stdlib Require Import ZArith List Bool Lia Floats String Ascii.
Import ListNotations.

Set Warnings "-register-all,-inexact-float".

(* ===================================================================== *)
(** ** Numbers *)

Module Num.

(** [(double) z] for a C integer [z]: the nearest binary64 value. *)
Definition of_Z (z : Z) : float :=
  SF2Prim (binary_normalize prec emax z 0 false).

(** C's [if (f)] on a double: true unless [f] compares equal to zero. *)
Definition truthy (f : float) : bool := negb (f =? 0)%float.

(** Neither NaN nor an infinity, read off the IEEE decoding. *)
Definition finite (f : float) : bool :=
  match Prim2SF f with
  | S754_zero _ | S754_finite _ _ _ => true
  | _ => false
  end.

(** [MAX] of <sys/param.h>: [(((a)>(b))?(a):(b))]. *)
Definition MAX (a b : float) : float := if (b <? a)%float then a else b.

(** [score = 0; for (...) score += x_i] *)
Definition sum (xs : list float) : float :=
  fold_left (fun acc x => (acc + x)%float) xs 0%float.

(** [score = 0; for (...) score = MAX(score, x_i)] *)
Definition maximum (xs : list float) : float :=
  fold_left MAX xs 0%float.

End Num.

(* ===================================================================== *)
(** ** The explain side channel *)

Module Explain.

(** Values a [ScoreExplain *] takes in the scorers. *)
Inductive eptr :=
| PNull                      (* NULL: explanation not requested *)
| PRoot                      (* the node ScorerArgs was built with *)
| PParent (child : eptr)     (* new ScoreExplain(child) *)
| PIndeterminate             (* a local declared without initialiser *)
| PChildExplain.             (* child->explain, read off a result node *)

Definition is_null (p : eptr) : bool :=
  match p with PNull => true | _ => false end.

(** A printf argument. *)
Inductive varg := VDouble (x : float) | VInt (z : Z).

(** What the code does to explain nodes. *)
Inductive op :=
| OpExplain (target : eptr) (fmt : string) (args : list varg)
| OpClear (target : eptr)
| OpPush (target child : eptr)
| OpNewParent (child : eptr).

Definition trace := list op.

(** Writer monad over the log. *)
Definition W (A : Type) : Type := (A * trace)%type.

Definition ret {A} (a : A) : W A := (a, []).

Definition bind {A B} (m : W A) (k : A -> W B) : W B :=
  let r := k (fst m) in (fst r, snd m ++ snd r).

Definition tell (o : op) : W unit := (tt, [o]).

(** The [EXPLAIN] macro: [if (explain) explain->explain(fmt, args)].  A
    handle that is not [NULL], an indeterminate one included, is logged as
    written through; what a log entry through an indeterminate handle
    means for the run is settled by [outcome] below. *)
Definition EXPLAIN (explain : eptr) (fmt : string) (args : list varg) : W unit :=
  if is_null explain then ret tt else tell (OpExplain explain fmt args).

(** Loop over a vector with an accumulator. *)
Definition foldM {A B} (f : B -> A -> W B) : list A -> B -> W B :=
  fix go (l : list A) (b : B) : W B :=
    match l with
    | [] => ret b
    | a :: l' => bind (f b a) (go l')
    end.

(** The numeric result of a run, log dropped. *)
Definition value {A} (m : W A) : A := fst m.

(** An operation that reads, tests or writes through an indeterminate
    pointer: undefined behaviour in C++, a crash in practice. *)
Definition undefined_op (o : op) : bool :=
  match o with
  | OpExplain PIndeterminate _ _
  | OpClear PIndeterminate
  | OpPush PIndeterminate _
  | OpPush _ PIndeterminate
  | OpNewParent PIndeterminate => true
  | _ => false
  end.

(** A run is defined when its log holds no such operation. *)
Definition defined (t : trace) : bool := forallb (fun o => negb (undefined_op o)) t.

(** What a run returns to its caller: the number computed, if the run is
    defined; nothing otherwise.  [value] is the number the arithmetic of
    the run produces, whether or not the run is defined. *)
Definition outcome {A} (m : W A) : option A :=
  if defined (snd m) then Some (fst m) else None.

End Explain.

Import Explain.

Declare Scope writer_scope.
Delimit Scope writer_scope with writer.
Notation "x <- m ;; k" := (bind m (fun x => k))
  (at level 61, m at next level, right associativity) : writer_scope.
Notation "m ;;; k" := (bind m (fun _ => k))
  (at level 61, right associativity) : writer_scope.

(* ===================================================================== *)
(** ** Data model *)

(** Term statistics; only [idf] is read by the scorers. *)
Record RSQueryTerm := { idf : float }.

(** Fields every result node carries. *)
Record ResultBase := {
  weight : float;
  freq : Z;
  offsets : list Z
}.

(** The result tree.  [VirtualResult] is a node that runs the base-class
    ([IndexResult::]) methods; [IntersectResult] and [UnionResult] derive
    from [AggregateResult]. *)
Inductive IndexResult :=
| TermResult (b : ResultBase) (term : option RSQueryTerm)
| VirtualResult (b : ResultBase)
| AggregateResult (b : ResultBase) (children : list IndexResult)
| IntersectResult (b : ResultBase) (children : list IndexResult)
| UnionResult (b : ResultBase) (children : list IndexResult).

(** Structural induction that reaches the children of composite nodes. *)
Section IndexResultInduction.
Variable P : IndexResult -> Prop.
Hypothesis HTerm : forall b t, P (TermResult b t).
Hypothesis HVirtual : forall b, P (VirtualResult b).
Hypothesis HAggregate : forall b cs, Forall P cs -> P (AggregateResult b cs).
Hypothesis HIntersect : forall b cs, Forall P cs -> P (IntersectResult b cs).
Hypothesis HUnion : forall b cs, Forall P cs -> P (UnionResult b cs).

Fixpoint IndexResult_tree_ind (r : IndexResult) : P r :=
  let all :=
    fix all (cs : list IndexResult) : Forall P cs :=
      match cs with
      | [] => Forall_nil P
      | c :: cs' => Forall_cons c (IndexResult_tree_ind c) (all cs')
      end in
  match r with
  | TermResult b t => HTerm b t
  | VirtualResult b => HVirtual b
  | AggregateResult b cs => HAggregate b cs (all cs)
  | IntersectResult b cs => HIntersect b cs (all cs)
  | UnionResult b cs => HUnion b cs (all cs)
  end.
End IndexResultInduction.

Definition base (r : IndexResult) : ResultBase :=
  match r with
  | TermResult b _ | VirtualResult b
  | AggregateResult b _ | IntersectResult b _ | UnionResult b _ => b
  end.

Definition children_of (r : IndexResult) : list IndexResult :=
  match r with
  | TermResult _ _ | VirtualResult _ => []
  | AggregateResult _ cs | IntersectResult _ cs | UnionResult _ cs => cs
  end.

(** [maxFreq] and [len] are unsigned and at most 32 bits wide: the
    [uint32_t norm] local of the TF-IDF scorer holds either unchanged. *)
Record RSDocumentMetadata := {
  score : float;
  maxFreq : Z;
  len : Z;
  payload : option (list Z)
}.

Record IndexStats := { avgDocLen : float }.

Record ScorerArgs := {
  indexStats : IndexStats;
  args_payload : list Z;
  explain : eptr
}.

(** [args->explain], under a name no parameter shadows. *)
Definition args_explain (args : ScorerArgs) : eptr := explain args.

(** [ScorerArgs::CreateNewExplainParent] *)
Definition CreateNewExplainParent (args : ScorerArgs) : W eptr :=
  if is_null (explain args) then ret PNull
  else (tell (OpNewParent (explain args)) ;;; ret (PParent (explain args)))%writer.

Definition NORM_MAXFREQ : Z := 1.
Definition NORM_DOCLEN : Z := 2.

(* ===================================================================== *)
(** ** TF-IDF *)

Module TFIDF.
Import Num.
Local Open Scope float_scope.
Local Open Scope writer_scope.

(** [TermResult::TFIDFScorer] *)
Definition TermResult_TFIDFScorer (b : ResultBase) (term : option RSQueryTerm)
    (explain : eptr) : W float :=
  let idf := match term with Some t => idf t | None => 0 end in
  let score := weight b * of_Z (freq b) * idf in
  EXPLAIN explain "(TFIDF %.2f = Weight %.2f * TF %d * IDF %.2f)"
    [VDouble score; VDouble (weight b); VInt (freq b); VDouble idf] ;;;
  ret score.

(** [IndexResult::TFIDFScorer(dmd, explain)] *)
Definition IndexResult_TFIDFScorer (b : ResultBase) (explain : eptr) : W float :=
  EXPLAIN explain "(TFIDF %.2f = Weight %.2f * Frequency %d)"
    [VDouble (weight b * of_Z (freq b)); VDouble (weight b); VInt (freq b)] ;;;
  ret (weight b * of_Z (freq b)).

(** [AggregateResult::TFIDFScorer], over the virtual call on a child.  In
    the explaining loop [ScoreExplain *exp;] has no initialiser: the child
    is handed an indeterminate handle, so every operation it logs makes
    the run undefined (see [outcome]). *)
Definition AggregateResult_TFIDFScorer (call : IndexResult -> eptr -> W float)
    (b : ResultBase) (children : list IndexResult) (explain : eptr) : W float :=
  score <-
    (if is_null explain then
       foldM (fun score child =>
                s <- call child PNull ;; ret (score + s)) children 0
     else
       tell (OpClear explain) ;;;
       score <- foldM (fun score child =>
                  let exp := PIndeterminate in
                  s <- call child exp ;;
                  tell (OpPush explain exp) ;;;
                  ret (score + s)) children 0 ;;
       EXPLAIN explain "(Weight %.2f * total children TFIDF %.2f)"
         [VDouble (weight b); VDouble score] ;;;
       ret score) ;;
  ret (weight b * score).

(** The virtual call [r->TFIDFScorer(dmd, explain)]. *)
Fixpoint TFIDFScorer_node (r : IndexResult) (explain : eptr) {struct r} : W float :=
  match r with
  | TermResult b t => TermResult_TFIDFScorer b t explain
  | VirtualResult b => IndexResult_TFIDFScorer b explain
  | AggregateResult b cs
  | IntersectResult b cs
  | UnionResult b cs => AggregateResult_TFIDFScorer TFIDFScorer_node b cs explain
  end.

Section TopLevel.
(** [IndexResult::MinOffsetDelta] is declared outside this file. *)
Variable MinOffsetDelta : IndexResult -> Z.

(** [IndexResult::TFIDFScorer(args, dmd, minScore, normMode)] *)
Definition IndexResult_TFIDFScorer_norm (r : IndexResult) (args : ScorerArgs)
    (dmd : RSDocumentMetadata) (minScore : float) (normMode : Z) : W float :=
  let explain0 := explain args in
  if score dmd =? 0 then
    EXPLAIN explain0 "Document score is 0" [] ;;; ret 0
  else
    let norm := if (normMode =? NORM_MAXFREQ)%Z then maxFreq dmd else len dmd in
    rawTfidf <- TFIDFScorer_node r explain0 ;;
    let tfidf := score dmd * rawTfidf / of_Z norm in
    explain1 <- CreateNewExplainParent args ;;
    if tfidf <? minScore then
      EXPLAIN explain1 "TFIDF score of %.2f is smaller than minimum score %.2f"
        [VDouble tfidf; VDouble minScore] ;;;
      ret 0
    else
      let slop := MinOffsetDelta r in
      let tfidf' := tfidf / of_Z slop in
      EXPLAIN explain1
        "Final TFIDF : words TFIDF %.2f * document score %.2f / norm %d / slop %d"
        [VDouble rawTfidf; VDouble (score dmd); VInt norm; VInt slop] ;;;
      ret tfidf'.

(** [TFIDFScorer] *)
Definition TFIDFScorer (args : ScorerArgs) (result : IndexResult)
    (dmd : RSDocumentMetadata) (minScore : float) : W float :=
  IndexResult_TFIDFScorer_norm result args dmd minScore NORM_MAXFREQ.

(** [TFIDFNormDocLenScorer] *)
Definition TFIDFNormDocLenScorer (args : ScorerArgs) (result : IndexResult)
    (dmd : RSDocumentMetadata) (minScore : float) : W float :=
  IndexResult_TFIDFScorer_norm result args dmd minScore NORM_DOCLEN.
End TopLevel.

End TFIDF.

(* ===================================================================== *)
(** ** BM25 *)

Module BM25.
Import Num.
Local Open Scope float_scope.
Local Open Scope writer_scope.

(** [static const float b = 0.5], promoted to double where it is used. *)
Definition b : float := 0.5.

(** [static const float k1 = 1.2]: the binary32 value nearest 1.2,
    promoted (exactly) to double where it is used. *)
Definition k1 : float := 0x1.333334p+0.

(** [f + k1 * (1.0f - b + b * avgDocLen)] *)
Definition denom (f : float) (args : ScorerArgs) : float :=
  f + k1 * (1 - b + b * avgDocLen (indexStats args)).

(** [TermResult::BM25Scorer] *)
Definition TermResult_BM25Scorer (rb : ResultBase) (term : option RSQueryTerm)
    (args : ScorerArgs) (explain : eptr) : W float :=
  let f := of_Z (freq rb) in
  let idf := match term with Some t => idf t | None => 0 end in
  let score := idf * f / denom f args in
  EXPLAIN explain
    "(%.2f = IDF %.2f * F %d / (F %d + k1 1.2 * (1 - b 0.5 + b 0.5 * Average Len %.2f)))"
    [VDouble score; VDouble idf; VInt (freq rb); VInt (freq rb);
     VDouble (avgDocLen (indexStats args))] ;;;
  ret score.

(** [IndexResult::BM25Scorer] *)
Definition IndexResult_BM25Scorer (rb : ResultBase)
    (args : ScorerArgs) (explain : eptr) : W float :=
  let f := of_Z (freq rb) in
  if truthy f then
    let score := weight rb * f / denom f args in
    EXPLAIN explain
      "(%.2f = Weight %.2f * F %d / (F %d + k1 1.2 * (1 - b 0.5 + b 0.5 * Average Len %.2f)))"
      [VDouble score; VDouble (weight rb); VInt (freq rb); VInt (freq rb);
       VDouble (avgDocLen (indexStats args))] ;;;
    ret score
  else
    EXPLAIN explain "Frequency 0 -> value 0" [] ;;; ret 0.

(** [AggregateResult::BM25Scorer].  Without explanation the children are
    called through the overload that takes the handle ([NULL]) as a third
    argument; with it, through the two-argument method, which reads the
    handle from [args]. *)
Definition AggregateResult_BM25Scorer
    (call : IndexResult -> ScorerArgs -> eptr -> W float)
    (rb : ResultBase) (children : list IndexResult)
    (args : ScorerArgs) (explain : eptr) : W float :=
  score <-
    (if is_null explain then
       foldM (fun score child =>
                s <- call child args PNull ;; ret (score + s)) children 0
     else
       tell (OpClear explain) ;;;
       score <- foldM (fun score child =>
                  s <- call child args (args_explain args) ;;
                  tell (OpPush explain PChildExplain) ;;;
                  ret (score + s)) children 0 ;;
       EXPLAIN explain "(Weight %.2f * children BM25 %.2f)"
         [VDouble (weight rb); VDouble score] ;;;
       ret score) ;;
  ret (score * weight rb).

(** The virtual call [r->BM25Scorer(args, dmd, explain)]. *)
Fixpoint BM25Scorer_node (r : IndexResult) (args : ScorerArgs) (explain : eptr)
    {struct r} : W float :=
  match r with
  | TermResult rb t => TermResult_BM25Scorer rb t args explain
  | VirtualResult rb => IndexResult_BM25Scorer rb args explain
  | AggregateResult rb cs
  | IntersectResult rb cs
  | UnionResult rb cs => AggregateResult_BM25Scorer BM25Scorer_node rb cs args explain
  end.

Section TopLevel.
Variable MinOffsetDelta : IndexResult -> Z.

(** [BM25Scorer] *)
Definition BM25Scorer (args : ScorerArgs) (r : IndexResult)
    (dmd : RSDocumentMetadata) (minScore : float) : W float :=
  bm25res <- BM25Scorer_node r args (explain args) ;;
  let score0 := score dmd * bm25res in
  explain1 <- CreateNewExplainParent args ;;
  if score0 <? minScore then
    EXPLAIN explain1 "BM25 score of %.2f is smaller than minimum score %.2f"
      [VDouble bm25res; VDouble score0] ;;;
    ret 0
  else
    let slop := MinOffsetDelta r in
    let score1 := score0 / of_Z slop in
    EXPLAIN explain1 "Final BM25 : words BM25 %.2f * document score %.2f / slop %d"
      [VDouble bm25res; VDouble (score dmd); VInt slop] ;;;
    ret score1.
End TopLevel.

End BM25.

(* ===================================================================== *)
(** ** Raw document score and DisMax *)

Module DisMax.
Import Num.
Local Open Scope float_scope.
Local Open Scope writer_scope.

(** [DocScoreScorer] *)
Definition DocScoreScorer (args : ScorerArgs) (r : IndexResult)
    (dmd : RSDocumentMetadata) (minScore : float) : W float :=
  EXPLAIN (explain args) "Document's score is %.2f" [VDouble (score dmd)] ;;;
  ret (score dmd).

(** [IndexResult::DisMaxScorer] *)
Definition IndexResult_DisMaxScorer (rb : ResultBase) (explain : eptr) : W float :=
  let score := of_Z (freq rb) in
  EXPLAIN explain "DISMAX %.2f = Weight %.2f * Frequency %d"
    [VDouble (weight rb * score); VDouble (weight rb); VInt (freq rb)] ;;;
  ret (weight rb * score).

(** [IntersectResult::DisMaxScorer].  In the explaining loop the local
    [explain] shadows the node's handle and has no initialiser: it is
    passed to the child and then written through, which makes the run
    undefined (see [outcome]). *)
Definition IntersectResult_DisMaxScorer (call : IndexResult -> eptr -> W float)
    (rb : ResultBase) (children : list IndexResult) (explain : eptr) : W float :=
  score <-
    (if is_null explain then
       foldM (fun score child =>
                s <- call child PNull ;; ret (score + s)) children 0
     else
       tell (OpClear explain) ;;;
       score <- foldM (fun score child =>
                  let explain' := PIndeterminate in
                  s <- call child explain' ;;
                  tell (OpPush explain' explain') ;;;
                  ret (score + s)) children 0 ;;
       EXPLAIN explain "%.2f = Weight %.2f * children DISMAX %.2f"
         [VDouble (weight rb * score); VDouble (weight rb); VDouble score] ;;;
       ret score) ;;
  ret (weight rb * score).

(** [score = MAX(score, call)]: the macro evaluates the call once for the
    comparison and, unless [score] is the greater, once more for the
    value. *)
Definition MAX_call (score : float) (call : W float) : W float :=
  s <- call ;; if s <? score then ret score else call.

(** [UnionResult::DisMaxScorer].  In the explaining loop [ScoreExplain
    *exp;] has no initialiser: the child is handed an indeterminate handle,
    which makes the run undefined (see [outcome]). *)
Definition UnionResult_DisMaxScorer (call : IndexResult -> eptr -> W float)
    (rb : ResultBase) (children : list IndexResult) (explain : eptr) : W float :=
  score <-
    (if is_null explain then
       foldM (fun score child => MAX_call score (call child PNull)) children 0
     else
       tell (OpClear explain) ;;;
       score <- foldM (fun score child =>
                  let exp := PIndeterminate in
                  s <- MAX_call score (call child exp) ;;
                  tell (OpPush explain exp) ;;;
                  ret s) children 0 ;;
       EXPLAIN explain "%.2f = Weight %.2f * children DISMAX %.2f"
         [VDouble (weight rb * score); VDouble (weight rb); VDouble score] ;;;
       ret score) ;;
  ret (weight rb * score).

(** The virtual call [r->DisMaxScorer(args, explain)].  Only
    [IntersectResult] and [UnionResult] override the base method, so a
    [TermResult] and a plain [AggregateResult] run
    [IndexResult::DisMaxScorer]. *)
Fixpoint DisMaxScorer_node (r : IndexResult) (explain : eptr) {struct r} : W float :=
  match r with
  | TermResult rb _ | VirtualResult rb | AggregateResult rb _ =>
      IndexResult_DisMaxScorer rb explain
  | IntersectResult rb cs => IntersectResult_DisMaxScorer DisMaxScorer_node rb cs explain
  | UnionResult rb cs => UnionResult_DisMaxScorer DisMaxScorer_node rb cs explain
  end.

(** [DisMaxScorer] *)
Definition DisMaxScorer (args : ScorerArgs) (h : IndexResult)
    (dmd : RSDocumentMetadata) (minScore : float) : W float :=
  DisMaxScorer_node h (explain args).

End DisMax.

(* ===================================================================== *)
(** ** Hamming distance between payloads *)

Module Hamming.
Import Num.
Local Open Scope Z_scope.

(** [bitsinbyte]: number of set bits of each byte value. *)
Definition bitsinbyte : list Z :=
  [0; 1; 1; 2; 1; 2; 2; 3; 1; 2; 2; 3; 2; 3; 3; 4; 1; 2; 2; 3; 2; 3; 3; 4; 2; 3; 3; 4; 3; 4; 4; 5;
   1; 2; 2; 3; 2; 3; 3; 4; 2; 3; 3; 4; 3; 4; 4; 5; 2; 3; 3; 4; 3; 4; 4; 5; 3; 4; 4; 5; 4; 5; 5; 6;
   1; 2; 2; 3; 2; 3; 3; 4; 2; 3; 3; 4; 3; 4; 4; 5; 2; 3; 3; 4; 3; 4; 4; 5; 3; 4; 4; 5; 4; 5; 5; 6;
   2; 3; 3; 4; 3; 4; 4; 5; 3; 4; 4; 5; 4; 5; 5; 6; 3; 4; 4; 5; 4; 5; 5; 6; 4; 5; 5; 6; 5; 6; 6; 7;
   1; 2; 2; 3; 2; 3; 3; 4; 2; 3; 3; 4; 3; 4; 4; 5; 2; 3; 3; 4; 3; 4; 4; 5; 3; 4; 4; 5; 4; 5; 5; 6;
   2; 3; 3; 4; 3; 4; 4; 5; 3; 4; 4; 5; 4; 5; 5; 6; 3; 4; 4; 5; 4; 5; 5; 6; 4; 5; 5; 6; 5; 6; 6; 7;
   2; 3; 3; 4; 3; 4; 4; 5; 3; 4; 4; 5; 4; 5; 5; 6; 3; 4; 4; 5; 4; 5; 5; 6; 4; 5; 5; 6; 5; 6; 6; 7;
   3; 4; 4; 5; 4; 5; 5; 6; 4; 5; 5; 6; 5; 6; 6; 7; 4; 5; 5; 6; 5; 6; 6; 7; 5; 6; 6; 7; 6; 7; 7; 8].

(** The [(unsigned char)] cast. *)
Definition uchar (z : Z) : Z := z mod 256.

(** Arithmetic on [size_t] wraps at 64 bits. *)
Definition size_t (z : Z) : Z := z mod 2 ^ 64.

(** The loop [for (i = 0; i < len; ++i) nbits += bitsinbyte[a[i] ^ b[i]]]. *)
Definition count_bits (a b : list Z) (len : nat) : Z :=
  fold_left
    (fun nbits i =>
       size_t (nbits + nth (Z.to_nat (uchar (Z.lxor (nth i a 0) (nth i b 0)))) bitsinbyte 0))
    (seq 0 len) 0.

(** [HammingDistanceScorer] *)
Definition HammingDistanceScorer (args : ScorerArgs) (h : IndexResult)
    (dmd : RSDocumentMetadata) (minScore : float) : W float :=
  let explain := explain args in
  let mismatch :=
    match payload dmd with
    | None => true
    | Some data =>
        (Z.of_nat (List.length data) =? 0)
        || negb (Z.of_nat (List.length data) =? Z.of_nat (List.length (args_payload args)))
    end in
  if mismatch then
    (EXPLAIN explain "Payloads provided to scorer vary in length" [] ;;;
     ret 0%float)%writer
  else
    let len := List.length (args_payload args) in
    let a := args_payload args in
    let b := match payload dmd with Some data => data | None => [] end in
    let nbits := count_bits a b len in
    let score := (1 / of_Z (size_t (nbits + 1)))%float in
    (EXPLAIN explain
       "String length is %zu. Bit count is %zu. Result is (1 / count + 1) = %.2f"
       [VInt (Z.of_nat len); VInt nbits; VDouble score] ;;;
     ret score)%writer.

(** Number of set bits among the low eight. *)
Definition popcount8 (v : Z) : Z :=
  Z.of_nat (List.length
    (filter (fun i => Z.testbit v (Z.of_nat i)) (seq 0 8))).

(** Reference notion: the number of bit positions, among the low eight,
    at which two bytes differ. *)
Definition byte_diff (x y : Z) : Z :=
  Z.of_nat (List.length
    (filter (fun i => xorb (Z.testbit x (Z.of_nat i)) (Z.testbit y (Z.of_nat i)))
            (seq 0 8))).

(** ... and over two buffers, position by position. *)
Fixpoint bitsDiffering (a b : list Z) : Z :=
  match a, b with
  | x :: a', y :: b' => byte_diff x y + bitsDiffering a' b'
  | _, _ => 0
  end.

End Hamming.

(* ===================================================================== *)
(** ** Proximity *)

Module Proximity.
Local Open Scope Z_scope.

(** Gaps between neighbouring positions of one ordered offset sequence. *)
Fixpoint adjacent_deltas (os : list Z) : list Z :=
  match os with
  | a :: (b :: _) as tl => (b - a) :: adjacent_deltas tl
  | _ => []
  end.

(** Every adjacent-offset delta found anywhere in the subtree. *)
Fixpoint all_deltas (r : IndexResult) : list Z :=
  adjacent_deltas (offsets (base r)) ++
  match r with
  | TermResult _ _ | VirtualResult _ => []
  | AggregateResult _ cs | IntersectResult _ cs | UnionResult _ cs =>
      flat_map all_deltas cs
  end.

Definition min_gap (r : IndexResult) : option Z :=
  match all_deltas r with
  | [] => None
  | d :: ds => Some (fold_left Z.min ds d)
  end.

(** Modelled from the spec: [IndexResult::MinOffsetDelta], whose body is
    not in this file.  The spec: "compute the minimum positional gap
    between matched-term offsets across the whole subtree (recursively,
    taking the smallest adjacent-offset delta found anywhere in the tree)
    ... A gap of 0 must be treated as 1 to avoid division by zero
    (tightest possible match)."  A tree with no two neighbouring offsets
    has no gap to report and is given the tightest value as well. *)
Definition MinOffsetDelta (r : IndexResult) : Z :=
  match min_gap r with
  | Some 0 => 1
  | Some g => g
  | None => 1
  end.

End Proximity.

(* ===================================================================== *)
(** ** Query expanders *)

Module Expander.
Local Open Scope Z_scope.
Set Implicit Arguments.

Inductive status := REDISMODULE_OK | REDISMODULE_ERR.

Record RSToken := { str : string; tok_len : nat; tok_flags : Z }.

(** What lands in the query's expansion set: [ExpandToken] adds one
    alternative, [ExpandTokenWithPhrase] a phrase. *)
Inductive Expansion :=
| ExpToken (s : string) (n : nat) (flags : Z)
| ExpPhrase (toks : list (string * nat)) (flags : Z) (replace exact : bool).

(** The query language: Chinese, or one named to Snowball. *)
Inductive RSLanguage := RS_LANG_CHINESE | RS_LANG_OTHER (name : string).

Definition RSLanguage_ToString (l : RSLanguage) : string :=
  match l with RS_LANG_CHINESE => "chinese" | RS_LANG_OTHER n => n end.

(** A Snowball handle, identified with what [sb_stemmer_stem] computes
    through it: the stem, or nothing when it returns [NULL]. *)
Definition sb_stemmer := string -> option string.

(** The per-query state the stemmer keeps in [ctx->privdata]. *)
Record DefaultExpanderData := {
  isCn : bool;
  latin : option sb_stemmer;
  tokenizer : bool;                     (* the Chinese tokenizer exists *)
  tokens : list (string * nat)
}.

Inductive PhoneticMode := PHONETIC_DEFAULT | PHONETIC_ENABLED | PHONETIC_DESABLED.

Inductive QueryErrorCode := QUERY_EINVAL.

(** ** C strings *)

Definition NUL : ascii := zero.

Definition c_head (s : string) : ascii :=
  match s with String c _ => c | EmptyString => NUL end.

Definition c_tail (s : string) : string :=
  match s with String _ s' => s' | EmptyString => EmptyString end.

Fixpoint strncmp (s1 s2 : string) (n : nat) : Z :=
  match n with
  | O => 0
  | S n' =>
      let c1 := c_head s1 in
      let c2 := c_head s2 in
      if Ascii.eqb c1 c2 then
        if Ascii.eqb c1 NUL then 0 else strncmp (c_tail s1) (c_tail s2) n'
      else Z.of_nat (nat_of_ascii c1) - Z.of_nat (nat_of_ascii c2)
  end.

Fixpoint strndup (s : string) (n : nat) : string :=
  match n, s with
  | S n', String c s' =>
      if Ascii.eqb c NUL then EmptyString else String c (strndup s' n')
  | _, _ => EmptyString
  end.

Fixpoint strlen (s : string) : nat :=
  match s with
  | String c s' => if Ascii.eqb c NUL then O else S (strlen s')
  | EmptyString => O
  end.

Fixpoint nul_free (s : string) : bool :=
  match s with
  | String c s' => negb (Ascii.eqb c NUL) && nul_free s'
  | EmptyString => true
  end.

Section WithIndex.
(** Types of the index that this file only holds pointers to. *)
Variable FieldSpec : Type.
Variable SynonymMap : Type.

Record IndexSpec := {
  spec_flags : Z;
  fields : list FieldSpec;
  smap : option SynonymMap
}.

(** The expander object: query context, current node options, error
    status and the expansions produced so far. *)
Record QueryExpander := {
  language : RSLanguage;
  privdata : option DefaultExpanderData;
  spec : IndexSpec;
  opts_phonetic : PhoneticMode;
  opts_fieldMask : Z;
  qstatus : option (QueryErrorCode * string);
  expansions : list Expansion
}.

Definition with_privdata (q : QueryExpander) (d : option DefaultExpanderData) :=
  {| language := language q; privdata := d; spec := spec q;
     opts_phonetic := opts_phonetic q; opts_fieldMask := opts_fieldMask q;
     qstatus := qstatus q; expansions := expansions q |}.

Definition with_status (q : QueryExpander) (e : option (QueryErrorCode * string)) :=
  {| language := language q; privdata := privdata q; spec := spec q;
     opts_phonetic := opts_phonetic q; opts_fieldMask := opts_fieldMask q;
     qstatus := e; expansions := expansions q |}.

Definition emit (q : QueryExpander) (e : Expansion) :=
  {| language := language q; privdata := privdata q; spec := spec q;
     opts_phonetic := opts_phonetic q; opts_fieldMask := opts_fieldMask q;
     qstatus := qstatus q; expansions := expansions q ++ [e] |}.

(** [ExpandToken(str, len, flags)] *)
Definition ExpandToken (s : string) (n : nat) (flags : Z) (q : QueryExpander) :=
  emit q (ExpToken s n flags).

(** [ExpandTokenWithPhrase(tokens, flags, replace, exact)] *)
Definition ExpandTokenWithPhrase (toks : list (string * nat)) (flags : Z)
    (replace exact : bool) (q : QueryExpander) :=
  emit q (ExpPhrase toks flags replace exact).

(** [status->SetError(code, msg)] *)
Definition SetError (code : QueryErrorCode) (msg : string) (q : QueryExpander) :=
  with_status q (Some (code, msg)).

(** Constants, macros and functions declared in headers outside this
    file. *)
Record Externals := {
  STEM_PREFIX : ascii;
  sb_stemmer_new : string -> option sb_stemmer;
  cn_tokenize : string -> nat -> list (string * nat);
  IsPhonetics : FieldSpec -> bool;
  GetIdsBySynonym : SynonymMap -> string -> nat -> option (list Z);
  IdToStr : Z -> string * nat;
  ExpandPhonetics : string -> nat -> option string;
  CheckPhoneticEnabled : IndexSpec -> Z -> bool;
  Index_HasPhonetic : Z;
  RS_FIELDMASK_ALL : Z;
  t_fieldMask_bits : Z;
  (* What the C++ standard leaves undefined is left open: the value of
     [(t_fieldMask)1 << ii] for [ii] at or beyond the mask width, and what
     comes of calling [expandCn] through a null pointer. *)
  overwide_shift : nat -> Z;
  null_expandCn : RSToken -> QueryExpander -> status * QueryExpander
}.

Variable X : Externals.

(** [DefaultExpander::expandCn], on the private data [dd]. *)
Definition expandCn (dd : DefaultExpanderData) (token : RSToken)
    (q : QueryExpander) : QueryExpander :=
  let toks0 := if tokenizer dd then tokens dd else [] in
  let toks := toks0 ++ cn_tokenize X (str token) (tok_len token) in
  let dd' := {| isCn := isCn dd; latin := latin dd;
                tokenizer := true; tokens := toks |} in
  ExpandTokenWithPhrase toks (tok_flags token) true false
    (with_privdata q (Some dd')).

(** The tail of [StemmerExpander::Expand], once a Snowball handle is
    at hand. *)
Definition stem_and_emit (sb : sb_stemmer) (token : RSToken)
    (q : QueryExpander) : QueryExpander :=
  match sb (substring 0 (tok_len token) (str token)) with
  | Some stemmed =>
      let sl := String.length stemmed in
      let dup := String (STEM_PREFIX X) stemmed in
      let q1 := ExpandToken dup (sl + 1) 0 q in
      if negb (Nat.eqb sl (tok_len token))
         || negb (strncmp stemmed (str token) (tok_len token) =? 0)
      then ExpandToken (strndup stemmed sl) sl 0 q1
      else q1
  | None => q
  end.

(** [StemmerExpander::Expand].  With no private data yet and a Chinese
    query, [expandCn] is called through the still-null [dd]: undefined
    behaviour, whose outcome is [null_expandCn]. *)
Definition StemmerExpander_Expand (token : RSToken) (q : QueryExpander)
    : status * QueryExpander :=
  let after_init :=
    match privdata q with
    | Some dd => inr (dd, q)
    | None =>
        match language q with
        | RS_LANG_CHINESE => inl (null_expandCn X token q)
        | RS_LANG_OTHER _ =>
            let dd := {| isCn := false;
                         latin := sb_stemmer_new X (RSLanguage_ToString (language q));
                         tokenizer := false; tokens := [] |} in
            inr (dd, with_privdata q (Some dd))
        end
    end in
  match after_init with
  | inl undefined => undefined
  | inr (dd, q1) =>
      if isCn dd then (REDISMODULE_OK, expandCn dd token q1)
      else
        match latin dd with
        | None => (REDISMODULE_OK, q1)
        | Some sb => (REDISMODULE_OK, stem_and_emit sb token q1)
        end
  end.

(** [PhoneticExpander::Expand] *)
Definition PhoneticExpander_Expand (token : RSToken) (q : QueryExpander)
    : status * QueryExpander :=
  match ExpandPhonetics X (str token) (tok_len token) with
  | Some primary => (REDISMODULE_OK, ExpandToken primary (strlen primary) 0 q)
  | None => (REDISMODULE_OK, q)
  end.

(** [SynonymExpander::Expand] *)
Definition SynonymExpander_Expand (token : RSToken) (q : QueryExpander)
    : status * QueryExpander :=
  match smap (spec q) with
  | None => (REDISMODULE_OK, q)
  | Some m =>
      match GetIdsBySynonym X m (str token) (tok_len token) with
      | None => (REDISMODULE_OK, q)
      | Some ids =>
          (REDISMODULE_OK,
           fold_left (fun q' id =>
                        let '(buff, n) := IdToStr X id in
                        ExpandToken buff n 0 q') ids q)
      end
  end.

(** [(t_fieldMask)1 << ii]: the bit at position [ii] below the mask
    width, [overwide_shift] from the width on, where C leaves the shift
    undefined. *)
Definition field_bit (ii : nat) : Z :=
  if Z.of_nat ii <? t_fieldMask_bits X then Z.shiftl 1 (Z.of_nat ii)
  else overwide_shift X ii.

(** The field count does not exceed the mask width, so that the loop of
    the field check never shifts by the width or more. *)
Definition fields_fit (sp : IndexSpec) : Prop :=
  Z.of_nat (List.length (fields sp)) <= t_fieldMask_bits X.

(** The validity check of the forced modes. *)
Definition phonetic_fields_valid (sp : IndexSpec) (fm : Z) : bool :=
  if fm =? RS_FIELDMASK_ALL X then
    negb (Z.land (spec_flags sp) (Index_HasPhonetic X) =? 0)
  else
    fold_left
      (fun isValid '(ii, fs) =>
         if Z.land fm (field_bit ii) =? 0 then isValid
         else if IsPhonetics X fs then true else isValid)
      (combine (seq 0 (List.length (fields sp))) (fields sp)) false.

(** [DefaultExpander::Expand].  The stemmer's return value is dropped, as
    in the source; where the stemmer call is undefined, so is what this
    function returns. *)
Definition DefaultExpander_Expand (token : RSToken) (q : QueryExpander)
    : status * QueryExpander :=
  let phonetic := opts_phonetic q in
  let q1 := snd (SynonymExpander_Expand token q) in
  let checked :=
    match phonetic with
    | PHONETIC_DEFAULT =>
        if CheckPhoneticEnabled X (spec q1) (opts_fieldMask q1)
        then Some PHONETIC_ENABLED else Some PHONETIC_DEFAULT
    | PHONETIC_ENABLED | PHONETIC_DESABLED =>
        if phonetic_fields_valid (spec q1) (opts_fieldMask q1)
        then Some phonetic else None
    end in
  match checked with
  | None =>
      (REDISMODULE_ERR, SetError QUERY_EINVAL "field does not support phonetics" q1)
  | Some phonetic' =>
      let q2 :=
        match phonetic' with
        | PHONETIC_ENABLED => snd (PhoneticExpander_Expand token q1)
        | _ => q1
        end in
      (REDISMODULE_OK, snd (StemmerExpander_Expand token q2))
  end.

(** The part of the expander that the sub-expanders leave alone. *)
Definition same_query (q q' : QueryExpander) : Prop :=
  spec q' = spec q /\ opts_phonetic q' = opts_phonetic q
  /\ opts_fieldMask q' = opts_fieldMask q /\ qstatus q' = qstatus q.

(** A field is requested by a mask when its bit is set, or when the
    mask is the all-fields mask. *)
Definition requested (fm : Z) (ii : nat) : Prop :=
  fm = RS_FIELDMASK_ALL X \/ Z.testbit fm (Z.of_nat ii) = true.

End WithIndex.

Unset Implicit Arguments.

End Expander.

(* ===================================================================== *)
(** ** The scoring protocol as a whole *)

(** The same scorer arguments with another explain handle. *)
Definition with_explain (args : ScorerArgs) (e : eptr) : ScorerArgs :=
  {| indexStats := indexStats args; args_payload := args_payload args;
     explain := e |}.

(** Which handle a composite's children see in the TF-IDF and DisMax
    loops, given the composite's own. *)
Definition child_handle (e : eptr) : eptr :=
  if is_null e then PNull else PIndeterminate.

(** The tree-walking algorithms. *)
Inductive Algorithm := ALG_TFIDF | ALG_BM25 | ALG_DISMAX.

(** A node's contribution under an algorithm: the number its virtual
    method returns, called with explain handle [e]. *)
Definition contribution (alg : Algorithm) (args : ScorerArgs) (e : eptr)
    (r : IndexResult) : float :=
  match alg with
  | ALG_TFIDF => value (TFIDF.TFIDFScorer_node r e)
  | ALG_BM25 => value (BM25.BM25Scorer_node r args e)
  | ALG_DISMAX => value (DisMax.DisMaxScorer_node r e)
  end.

Definition is_composite (r : IndexResult) : bool :=
  match r with
  | AggregateResult _ _ | IntersectResult _ _ | UnionResult _ _ => true
  | TermResult _ _ | VirtualResult _ => false
  end.

(** Whether the node's own class overrides what [AggregateResult] provides
    for the algorithm: the file defines [IntersectResult::DisMaxScorer] and
    [UnionResult::DisMaxScorer] and no other method of the two classes. *)
Definition defines_override (r : IndexResult) (alg : Algorithm) : bool :=
  match r, alg with
  | IntersectResult _ _, ALG_DISMAX | UnionResult _ _, ALG_DISMAX => true
  | _, _ => false
  end.

(** The six registered scorers. *)
Inductive Scorer :=
| SC_TFIDF | SC_TFIDF_DOCNORM | SC_BM25 | SC_DISMAX | SC_DOCSCORE | SC_HAMMING.

(** Running a registered scorer, as [DefaultExtension] registers them. *)
Definition run_scorer (MinOffsetDelta : IndexResult -> Z) (sc : Scorer)
    (args : ScorerArgs) (r : IndexResult) (dmd : RSDocumentMetadata)
    (minScore : float) : W float :=
  match sc with
  | SC_TFIDF => TFIDF.TFIDFScorer MinOffsetDelta args r dmd minScore
  | SC_TFIDF_DOCNORM => TFIDF.TFIDFNormDocLenScorer MinOffsetDelta args r dmd minScore
  | SC_BM25 => BM25.BM25Scorer MinOffsetDelta args r dmd minScore
  | SC_DISMAX => DisMax.DisMaxScorer args r dmd minScore
  | SC_DOCSCORE => DisMax.DocScoreScorer args r dmd minScore
  | SC_HAMMING => Hamming.HammingDistanceScorer args r dmd minScore
  end.

(* ===================================================================== *)
(** ** A sample index for concrete runs *)

Section Sample.
Import Expander.
Local Open Scope Z_scope.

(** A small index: two fields, the second one phonetic, no synonym map;
  an English stemmer that maps "running" to "run" and leaves other words
  alone.  The two undefined operations are given some value (the shift
  count taken modulo 64, an error status); no statement below depends on
  it. *)
Definition sample_externals : Expander.Externals bool unit :=
{| STEM_PREFIX := "+"%char;
   sb_stemmer_new := fun lang =>
     if String.eqb lang "english"
     then Some (fun w => if String.eqb w "running" then Some "run"%string
                         else Some w)
     else None;
   cn_tokenize := fun _ _ => [];
   IsPhonetics := fun fs => fs;
   GetIdsBySynonym := fun _ _ _ => None;
   IdToStr := fun _ => (""%string, O);
   ExpandPhonetics := fun w _ => Some w;
   CheckPhoneticEnabled := fun sp fm =>
     existsb (fun '(ii, fs) => Z.testbit fm (Z.of_nat ii) && fs)
             (combine (seq 0 (List.length (fields sp))) (fields sp));
   Index_HasPhonetic := 16;
   RS_FIELDMASK_ALL := 2 ^ 64 - 1;
   t_fieldMask_bits := 64;
   overwide_shift := fun ii => Z.shiftl 1 (Z.of_nat ii mod 64);
   null_expandCn := fun _ q => (REDISMODULE_ERR, q) |}.

Definition sample_query (mode : PhoneticMode) (mask : Z) : QueryExpander bool unit :=
{| language := RS_LANG_OTHER "english";
   privdata := None;
   spec := {| spec_flags := 16; fields := [false; true]; smap := None |};
   opts_phonetic := mode;
   opts_fieldMask := mask;
   qstatus := None;
   expansions := [] |}.

Definition sample_token (w : string) : RSToken :=
{| str := w; tok_len := String.length w; tok_flags := 0 |}.

(** The same index with a synonym map holding one group pair for "car". *)
Definition sample_synonym_externals : Expander.Externals bool unit :=
  {| STEM_PREFIX := STEM_PREFIX sample_externals;
     sb_stemmer_new := sb_stemmer_new sample_externals;
     cn_tokenize := cn_tokenize sample_externals;
     IsPhonetics := IsPhonetics sample_externals;
     GetIdsBySynonym := fun _ w _ =>
       if String.eqb w "car" then Some [7; 9] else None;
     IdToStr := fun id => if id =? 7 then ("~7"%string, 2%nat) else ("~9"%string, 2%nat);
     ExpandPhonetics := ExpandPhonetics sample_externals;
     CheckPhoneticEnabled := CheckPhoneticEnabled sample_externals;
     Index_HasPhonetic := Index_HasPhonetic sample_externals;
     RS_FIELDMASK_ALL := RS_FIELDMASK_ALL sample_externals;
     t_fieldMask_bits := t_fieldMask_bits sample_externals;
     overwide_shift := overwide_shift sample_externals;
     null_expandCn := null_expandCn sample_externals |}.

Definition sample_synonym_query (mode : PhoneticMode) (mask : Z)
    : QueryExpander bool unit :=
  {| language := RS_LANG_OTHER "english";
     privdata := None;
     spec := {| spec_flags := 16; fields := [false; true]; smap := Some tt |};
     opts_phonetic := mode;
     opts_fieldMask := mask;
     qstatus := None;
     expansions := [ExpToken "auto" 4 0] |}.

End Sample.

(* ===================================================================== *)
(** ** Rebuilding trees and expander states *)

(** The same tree with other base records: [fT] on Term leaves, [fO] on
    every other node, and [g] on the term records. *)
Fixpoint retouch (fT fO : ResultBase -> ResultBase)
    (g : option RSQueryTerm -> option RSQueryTerm) (r : IndexResult) : IndexResult :=
  match r with
  | TermResult b t => TermResult (fT b) (g t)
  | VirtualResult b => VirtualResult (fO b)
  | AggregateResult b cs => AggregateResult (fO b) (map (retouch fT fO g) cs)
  | IntersectResult b cs => IntersectResult (fO b) (map (retouch fT fO g) cs)
  | UnionResult b cs => UnionResult (fO b) (map (retouch fT fO g) cs)
  end.

(** The same scorer arguments and document with other payloads. *)
Definition with_args_payload (args : ScorerArgs) (p : list Z) : ScorerArgs :=
  {| indexStats := indexStats args; args_payload := p; explain := explain args |}.

Definition with_payload (dmd : RSDocumentMetadata) (p : option (list Z))
    : RSDocumentMetadata :=
  {| score := score dmd; maxFreq := maxFreq dmd; len := len dmd; payload := p |}.

(** Every element of a buffer is a byte value. *)
Definition bytes (l : list Z) : Prop := Forall (fun x => (0 <= x < 256)%Z) l.

Section ExpanderStates.
Import Expander.
Context {FieldSpec SynonymMap : Type}.

(** The same expander with another list of expansions so far. *)
Definition with_expansions (q : QueryExpander FieldSpec SynonymMap)
    (l : list Expansion) : QueryExpander FieldSpec SynonymMap :=
  {| language := language q; privdata := privdata q; spec := spec q;
     opts_phonetic := opts_phonetic q; opts_fieldMask := opts_fieldMask q;
     qstatus := qstatus q; expansions := l |}.

(** What an expander adds when started from an empty expansion list. *)
Definition emitted
    (E : RSToken -> QueryExpander FieldSpec SynonymMap
         -> status * QueryExpander FieldSpec SynonymMap)
    (token : RSToken) (q : QueryExpander FieldSpec SynonymMap) : list Expansion :=
  expansions (snd (E token (with_expansions q []))).

(** The same collaborators with another Chinese tokenizer, or another
    Snowball language table. *)
Definition with_cn_tokenize (X : Externals FieldSpec SynonymMap)
    (f : string -> nat -> list (string * nat)) : Externals FieldSpec SynonymMap :=
  {| STEM_PREFIX := STEM_PREFIX X; sb_stemmer_new := sb_stemmer_new X;
     cn_tokenize := f; IsPhonetics := IsPhonetics X;
     GetIdsBySynonym := GetIdsBySynonym X; IdToStr := IdToStr X;
     ExpandPhonetics := ExpandPhonetics X;
     CheckPhoneticEnabled := CheckPhoneticEnabled X;
     Index_HasPhonetic := Index_HasPhonetic X;
     RS_FIELDMASK_ALL := RS_FIELDMASK_ALL X;
     t_fieldMask_bits := t_fieldMask_bits X;
     overwide_shift := overwide_shift X;
     null_expandCn := null_expandCn X |}.

Definition with_sb_stemmer_new (X : Externals FieldSpec SynonymMap)
    (f : string -> option sb_stemmer) : Externals FieldSpec SynonymMap :=
  {| STEM_PREFIX := STEM_PREFIX X; sb_stemmer_new := f;
     cn_tokenize := cn_tokenize X; IsPhonetics := IsPhonetics X;
     GetIdsBySynonym := GetIdsBySynonym X; IdToStr := IdToStr X;
     ExpandPhonetics := ExpandPhonetics X;
     CheckPhoneticEnabled := CheckPhoneticEnabled X;
     Index_HasPhonetic := Index_HasPhonetic X;
     RS_FIELDMASK_ALL := RS_FIELDMASK_ALL X;
     t_fieldMask_bits := t_fieldMask_bits X;
     overwide_shift := overwide_shift X;
     null_expandCn := null_expandCn X |}.

(** The one state in which [StemmerExpander::Expand] calls a method
    through a null pointer. *)
Definition null_chinese (q : QueryExpander FieldSpec SynonymMap) : Prop :=
  privdata q = None /\ language q = RS_LANG_CHINESE.

(** The states in which the stemmer expander works with Snowball: private
    data that says not Chinese, or none yet on a query in another
    language. *)
Definition non_chinese (q : QueryExpander FieldSpec SynonymMap) : Prop :=
  (exists dd, privdata q = Some dd /\ isCn dd = false)
  \/ (exists name, privdata q = None /\ language q = RS_LANG_OTHER name).

(** The stemmer expander called on the tokens of a query, one after the
    other, on the same expander object. *)
Definition expand_tokens (X : Externals FieldSpec SynonymMap)
    (tokens : list RSToken) (q : QueryExpander FieldSpec SynonymMap)
    : QueryExpander FieldSpec SynonymMap :=
  fold_left (fun q' token => snd (StemmerExpander_Expand X token q')) tokens q.

(** Whether the phonetic step of the default expander runs, once the
    validation has passed. *)
Definition phonetic_runs (X : Externals FieldSpec SynonymMap)
    (q : QueryExpander FieldSpec SynonymMap) : bool :=
  match opts_phonetic q with
  | PHONETIC_ENABLED => true
  | PHONETIC_DESABLED => false
  | PHONETIC_DEFAULT => CheckPhoneticEnabled X (spec q) (opts_fieldMask q)
  end.

(** Whether the mode is one of the two forced ones. *)
Definition forced (q : QueryExpander FieldSpec SynonymMap) : bool :=
  match opts_phonetic q with
  | PHONETIC_DEFAULT => false
  | PHONETIC_ENABLED | PHONETIC_DESABLED => true
  end.

End ExpanderStates.

(* ===================================================================== *)
(** * Properties *)

(** ** Facts about binary64 arithmetic *)

Module NumFacts.
Import Num.

Lemma Prim2SF_zero : Prim2SF 0%float = S754_zero false.
Proof. reflexivity. Qed.

Lemma eqb_zero_true (x : float) :
  (x =? 0)%float = true <-> exists s, Prim2SF x = S754_zero s.
Proof.
  rewrite FloatAxioms.eqb_spec, Prim2SF_zero.
  destruct (Prim2SF x) as [s | s | | s m e]; cbn.
  - split; [eauto | reflexivity].
  - destruct s; split; try discriminate; intros [? ?]; discriminate.
  - split; [discriminate | intros [? ?]; discriminate].
  - destruct s; split; try discriminate; intros [? ?]; discriminate.
Qed.

Lemma mul_zero_l (x y : float) s :
  Prim2SF x = S754_zero s -> finite y = true ->
  exists s', Prim2SF (x * y)%float = S754_zero s'.
Proof.
  unfold finite. intros Hx Hy. rewrite FloatAxioms.mul_spec, Hx.
  destruct (Prim2SF y) as [sy | sy | | sy m e]; try discriminate; cbn; eauto.
Qed.

Lemma div_zero_l (x y : float) s sy m e :
  Prim2SF x = S754_zero s -> Prim2SF y = S754_finite sy m e ->
  exists s', Prim2SF (x / y)%float = S754_zero s'.
Proof.
  intros Hx Hy. rewrite FloatAxioms.div_spec, Hx, Hy. cbn. eauto.
Qed.

Lemma mul_comm (x y : float) : (x * y = y * x)%float.
Proof.
  apply Prim2SF_inj. rewrite !FloatAxioms.mul_spec.
  destruct (Prim2SF x) as [sx | sx | | sx mx ex],
           (Prim2SF y) as [sy | sy | | sy my ey];
    cbn; try reflexivity; try (now rewrite xorb_comm).
  unfold SF64mul. cbn.
  now rewrite xorb_comm, Pos.mul_comm, Z.add_comm.
Qed.

(** *** Integers convert to finite, non-zero doubles *)

Lemma digits2_size (p : positive) : digits2_pos p = Pos.size p.
Proof. induction p; cbn; congruence. Qed.

Lemma digits2_bound (p : positive) :
  (Zpos p < 2 ^ 53)%Z -> (Zpos (digits2_pos p) <= 53)%Z.
Proof.
  intros H. rewrite digits2_size.
  pose proof (Pos.size_le p) as Hle.
  assert (Hz : (2 ^ Zpos (Pos.size p) <= 2 * Zpos p)%Z).
  { change (2 * Zpos p)%Z with (Zpos (p~0)).
    rewrite <- Pos2Z.inj_pow. apply Pos2Z.pos_le_pos. exact Hle. }
  destruct (Z_le_gt_dec (Zpos (Pos.size p)) 53) as [|Hgt]; [assumption|].
  exfalso.
  assert ((2 ^ 54 <= 2 ^ Zpos (Pos.size p))%Z)
    by (apply Z.pow_le_mono_r; lia).
  change (2 ^ 54)%Z with (2 * 2 ^ 53)%Z in *. lia.
Qed.

Lemma digits2_iter_xO (p k : positive) :
  Zpos (digits2_pos (Pos.iter xO p k)) = (Zpos (digits2_pos p) + Zpos k)%Z.
Proof.
  induction k using Pos.peano_ind.
  - cbn. lia.
  - rewrite Pos.iter_succ. cbn [digits2_pos]. lia.
Qed.

Lemma round_aux_canonical (s : bool) (m : positive) (e : Z) :
  Zpos (digits2_pos m) = 53%Z -> (-1074 <= e <= 971)%Z ->
  binary_round_aux prec emax s (Zpos m) e loc_Exact = S754_finite s m e.
Proof.
  intros Hd He.
  assert (Hf : (fexp prec emax (Zdigits2 (Zpos m) + e) - e = 0)%Z).
  { cbn [Zdigits2]. rewrite Hd. unfold fexp, SpecFloat.emin, prec, emax. lia. }
  unfold binary_round_aux, shr_fexp. rewrite Hf.
  cbn [shr shr_record_of_loc shr_m shr_r shr_s loc_of_shr_record
       round_nearest_even].
  rewrite Hf. cbn [shr shr_m].
  change (emax - prec)%Z with 971%Z.
  destruct (Z.leb_spec e 971); [reflexivity | lia].
Qed.

Lemma round_int (s : bool) (p : positive) :
  (Zpos (digits2_pos p) <= 53)%Z ->
  exists m e, binary_round prec emax s p 0 = S754_finite s m e
              /\ valid_binary (S754_finite s m e) = true.
Proof.
  intros Hd.
  assert (Hpos : (0 < Zpos (digits2_pos p))%Z) by lia.
  unfold binary_round.
  assert (Hfexp : fexp prec emax (Zpos (digits2_pos p) + 0)
                  = (Zpos (digits2_pos p) - 53)%Z).
  { unfold fexp, SpecFloat.emin, prec, emax. lia. }
  rewrite Hfexp. unfold shl_align.
  assert (Hvalid : forall m e, Zpos (digits2_pos m) = 53%Z ->
             (-1074 <= e <= 971)%Z ->
             valid_binary (S754_finite s m e) = true).
  { intros m e Hm He. cbn. unfold bounded, canonical_mantissa.
    rewrite Hm. unfold fexp, SpecFloat.emin, prec, emax.
    apply andb_true_intro. split; [apply Z.eqb_eq | apply Z.leb_le]; lia. }
  destruct (Zpos (digits2_pos p) - 53 - 0)%Z as [|k|k] eqn:Hk.
  - exists p, 0%Z. rewrite round_aux_canonical by lia. split; [reflexivity|].
    apply Hvalid; lia.
  - lia.
  - pose proof (digits2_iter_xO p k) as Hit.
    exists (Pos.iter xO p k), (Zpos (digits2_pos p) - 53)%Z.
    rewrite round_aux_canonical by lia. split; [reflexivity|].
    apply Hvalid; lia.
Qed.

(** An [int] (indeed any integer below 2^53 in magnitude) other than 0
    becomes a finite double other than 0. *)
Lemma of_Z_finite_nonzero (z : Z) :
  z <> 0%Z -> (Z.abs z < 2 ^ 53)%Z ->
  exists s m e, Prim2SF (of_Z z) = S754_finite s m e.
Proof.
  intros Hz Hb. unfold of_Z.
  destruct z as [|p|p]; [congruence | |].
  - destruct (round_int false p) as (m & e & Hr & Hv);
      [apply digits2_bound; exact Hb|].
    exists false, m, e. cbn [binary_normalize]. rewrite Hr.
    now apply Prim2SF_SF2Prim.
  - destruct (round_int true p) as (m & e & Hr & Hv);
      [apply digits2_bound; exact Hb|].
    exists true, m, e. cbn [binary_normalize]. rewrite Hr.
    now apply Prim2SF_SF2Prim.
Qed.

Lemma of_Z_pos_sign (z : Z) :
  (0 < z < 2 ^ 53)%Z -> exists m e, Prim2SF (of_Z z) = S754_finite false m e.
Proof.
  intros [Hz Hb]. unfold of_Z.
  destruct z as [|p|p]; try lia.
  destruct (round_int false p) as (m & e & Hr & Hv);
    [apply digits2_bound; exact Hb|].
  exists m, e. cbn [binary_normalize]. rewrite Hr.
  now apply Prim2SF_SF2Prim.
Qed.

Lemma of_Z_pos_gt0 (z : Z) :
  (0 < z < 2 ^ 53)%Z -> (0 <? of_Z z)%float = true.
Proof.
  intros H. destruct (of_Z_pos_sign _ H) as (m & e & Hp).
  rewrite FloatAxioms.ltb_spec, Prim2SF_zero, Hp. reflexivity.
Qed.

Lemma gt0_truthy (f : float) : (0 <? f)%float = true -> truthy f = true.
Proof.
  unfold truthy. rewrite FloatAxioms.ltb_spec, FloatAxioms.eqb_spec, Prim2SF_zero.
  destruct (Prim2SF f) as [s | s | | s m e]; cbn; try discriminate;
    destruct s; cbn; intros; try discriminate; reflexivity.
Qed.

End NumFacts.

(** ** Ordering of non-negative doubles *)

Module OrderFacts.
Import Num.
Local Open Scope float_scope.

Ltac sf_cases :=
  repeat match goal with
  | s : bool |- _ => destruct s
  end; cbn in *; try discriminate; try reflexivity.

Ltac cmp_cases :=
  repeat match goal with
  | H : context [Z.compare ?a ?b] |- _ => destruct (Z.compare_spec a b); cbn in H
  | |- context [Z.compare ?a ?b] => destruct (Z.compare_spec a b); cbn
  | H : context [Pos.compare_cont Eq ?a ?b] |- _ =>
      change (Pos.compare_cont Eq a b) with (Pos.compare a b) in H;
      destruct (Pos.compare_spec a b); cbn in H
  | |- context [Pos.compare_cont Eq ?a ?b] =>
      change (Pos.compare_cont Eq a b) with (Pos.compare a b);
      destruct (Pos.compare_spec a b); cbn
  end; try discriminate; try reflexivity; try lia.

Lemma leb_trans (a b c : float) :
  (0 <=? a) = true -> (0 <=? b) = true -> (0 <=? c) = true ->
  (a <=? b) = true -> (b <=? c) = true -> (a <=? c) = true.
Proof.
  rewrite !FloatAxioms.leb_spec. change (Prim2SF 0) with (S754_zero false).
  destruct (Prim2SF a) as [sa | sa | | sa ma ea],
           (Prim2SF b) as [sb | sb | | sb mb eb],
           (Prim2SF c) as [sc | sc | | sc mc ec];
    unfold SFleb; cbn; sf_cases; intros; cmp_cases.
Qed.

Lemma leb_refl (a : float) : (0 <=? a) = true -> (a <=? a) = true.
Proof.
  rewrite !FloatAxioms.leb_spec. change (Prim2SF 0) with (S754_zero false).
  destruct (Prim2SF a) as [sa | sa | | sa ma ea];
    unfold SFleb; cbn; sf_cases; intros; cmp_cases.
Qed.

Lemma leb_total (a b : float) :
  (0 <=? a) = true -> (0 <=? b) = true -> (b <? a) = false -> (a <=? b) = true.
Proof.
  rewrite !FloatAxioms.leb_spec, FloatAxioms.ltb_spec. change (Prim2SF 0) with (S754_zero false).
  destruct (Prim2SF a) as [sa | sa | | sa ma ea],
           (Prim2SF b) as [sb | sb | | sb mb eb];
    unfold SFleb, SFltb; cbn; sf_cases; intros; cmp_cases.
Qed.

Lemma ltb_leb (a b : float) : (b <? a) = true -> (b <=? a) = true.
Proof.
  rewrite !FloatAxioms.leb_spec, FloatAxioms.ltb_spec. unfold SFleb, SFltb.
  destruct (SFcompare (Prim2SF b) (Prim2SF a)) as [[]|]; try discriminate; reflexivity.
Qed.

Lemma ltb0_false (a : float) : (0 <=? a) = true -> (a <? 0) = false.
Proof.
  rewrite !FloatAxioms.leb_spec, FloatAxioms.ltb_spec. change (Prim2SF 0) with (S754_zero false).
  destruct (Prim2SF a) as [sa | sa | | sa ma ea];
    unfold SFleb, SFltb; cbn; sf_cases.
Qed.

Lemma MAX_fold_bounds (xs : list float) (acc : float) :
  (0 <=? acc) = true -> Forall (fun x => (0 <=? x) = true) xs ->
  let r := fold_left MAX xs acc in
  (0 <=? r) = true /\ (acc <=? r) = true
  /\ Forall (fun x => (x <=? r) = true) xs
  /\ (r = acc \/ In r xs).
Proof.
  revert acc. induction xs as [|x xs IH]; intros acc Hacc Hxs; cbn zeta.
  - cbn. repeat split; auto using leb_refl.
  - inversion Hxs as [|? ? Hx Hxs']; subst. cbn [fold_left].
    assert (Hm0 : (0 <=? MAX acc x) = true)
      by (unfold MAX; destruct (x <? acc); assumption).
    assert (Hma : (acc <=? MAX acc x) = true).
    { unfold MAX. destruct (x <? acc) eqn:E; [now apply leb_refl|].
      now apply leb_total. }
    assert (Hmx : (x <=? MAX acc x) = true).
    { unfold MAX. destruct (x <? acc) eqn:E; [now apply ltb_leb|].
      now apply leb_refl. }
    destruct (IH (MAX acc x) Hm0 Hxs') as (H0 & Hle & Hall & Hin).
    repeat split.
    + exact H0.
    + apply (leb_trans acc (MAX acc x)); assumption.
    + constructor; [apply (leb_trans x (MAX acc x)); assumption | exact Hall].
    + destruct Hin as [Hin | Hin]; [| right; right; exact Hin].
      rewrite Hin. unfold MAX. destruct (x <? acc); [left | right; left]; reflexivity.
Qed.

Lemma maximum_is_max (xs : list float) :
  xs <> [] -> Forall (fun x => (0 <=? x) = true) xs ->
  In (maximum xs) xs /\ Forall (fun x => (x <=? maximum xs) = true) xs.
Proof.
  intros Hne Hxs. destruct xs as [|x xs]; [congruence|].
  inversion Hxs as [|? ? Hx Hxs']; subst.
  unfold maximum. cbn [fold_left].
  assert (Hm : MAX 0 x = x) by (unfold MAX; now rewrite ltb0_false).
  rewrite Hm.
  destruct (MAX_fold_bounds xs x Hx Hxs') as (_ & Hle & Hall & Hin).
  split.
  - destruct Hin as [-> | Hin]; [left; reflexivity | right; exact Hin].
  - constructor; assumption.
Qed.

End OrderFacts.

(** ** The writer monad and the explain log *)

Module WriterFacts.

Lemma value_bind {A B} (m : W A) (k : A -> W B) :
  value (bind m k) = value (k (value m)).
Proof. reflexivity. Qed.

Lemma value_ret {A} (a : A) : value (ret a) = a.
Proof. reflexivity. Qed.

Lemma value_foldM {A B} (f : B -> A -> W B) (l : list A) (b : B) :
  value (foldM f l b) = fold_left (fun acc a => value (f acc a)) l b.
Proof.
  revert b. induction l as [|a l IH]; intros b; [reflexivity|].
  cbn [foldM fold_left]. rewrite value_bind. apply IH.
Qed.

Lemma fold_left_ext_in {A B} (f g : B -> A -> B) (l : list A) (b : B) :
  (forall acc a, In a l -> f acc a = g acc a) ->
  fold_left f l b = fold_left g l b.
Proof.
  revert b. induction l as [|a l IH]; intros b H; [reflexivity|].
  cbn. rewrite (H b a) by (left; reflexivity).
  apply IH. intros acc x Hx. apply H. right. exact Hx.
Qed.

Lemma fold_left_map_acc {A} (op : float -> float -> float)
    (g : A -> float) (l : list A) (b : float) :
  fold_left (fun acc a => op acc (g a)) l b = fold_left op (map g l) b.
Proof.
  revert b. induction l as [|a l IH]; intros b; [reflexivity|]. cbn. apply IH.
Qed.

End WriterFacts.

(** ** The numeric result does not read the explain handle *)

Module ScoreFacts.
Import Num WriterFacts.
Local Open Scope float_scope.

Lemma TFIDF_aggregate_value call b cs e :
  value (TFIDF.AggregateResult_TFIDFScorer call b cs e)
  = weight b * fold_left (fun acc c => acc + value (call c (child_handle e))) cs 0.
Proof.
  unfold TFIDF.AggregateResult_TFIDFScorer, child_handle.
  destruct (is_null e); rewrite !value_bind.
  - rewrite value_foldM. reflexivity.
  - rewrite value_foldM. reflexivity.
Qed.

Lemma TFIDF_explain_irrelevant (r : IndexResult) (e : eptr) :
  value (TFIDF.TFIDFScorer_node r e) = value (TFIDF.TFIDFScorer_node r PNull).
Proof.
  revert e. induction r as [b t | b | b cs IH | b cs IH | b cs IH]
    using IndexResult_tree_ind; intros e;
    try reflexivity;
    cbn [TFIDF.TFIDFScorer_node]; rewrite !TFIDF_aggregate_value; f_equal;
    apply fold_left_ext_in; intros acc c Hc; f_equal;
    rewrite Forall_forall in IH;
    rewrite (IH c Hc (child_handle e)), (IH c Hc (child_handle PNull));
    reflexivity.
Qed.

Lemma BM25_aggregate_value call b cs args e :
  value (BM25.AggregateResult_BM25Scorer call b cs args e)
  = fold_left (fun acc c =>
                 acc + value (call c args (if is_null e then PNull
                                           else args_explain args))) cs 0
    * weight b.
Proof.
  unfold BM25.AggregateResult_BM25Scorer.
  destruct (is_null e); rewrite !value_bind.
  - rewrite value_foldM. reflexivity.
  - rewrite value_foldM. reflexivity.
Qed.

Lemma BM25_leaf_irrelevant b args e :
  value (BM25.IndexResult_BM25Scorer b args e)
  = value (BM25.IndexResult_BM25Scorer b args PNull).
Proof.
  unfold BM25.IndexResult_BM25Scorer.
  destruct (truthy (of_Z (freq b))); reflexivity.
Qed.

Lemma BM25_explain_irrelevant (r : IndexResult) (args : ScorerArgs) (e e' : eptr) :
  value (BM25.BM25Scorer_node r (with_explain args e') e)
  = value (BM25.BM25Scorer_node r args PNull).
Proof.
  revert e. induction r as [b t | b | b cs IH | b cs IH | b cs IH]
    using IndexResult_tree_ind; intros e;
    try reflexivity.
  - cbn [BM25.BM25Scorer_node]. unfold BM25.IndexResult_BM25Scorer.
    destruct (truthy (of_Z (freq b))); reflexivity.
  - cbn [BM25.BM25Scorer_node]. rewrite !BM25_aggregate_value. f_equal.
    apply fold_left_ext_in. intros acc c Hc. f_equal.
    rewrite Forall_forall in IH. rewrite (IH c Hc). reflexivity.
  - cbn [BM25.BM25Scorer_node]. rewrite !BM25_aggregate_value. f_equal.
    apply fold_left_ext_in. intros acc c Hc. f_equal.
    rewrite Forall_forall in IH. rewrite (IH c Hc). reflexivity.
  - cbn [BM25.BM25Scorer_node]. rewrite !BM25_aggregate_value. f_equal.
    apply fold_left_ext_in. intros acc c Hc. f_equal.
    rewrite Forall_forall in IH. rewrite (IH c Hc). reflexivity.
Qed.

Lemma DisMax_intersect_value call b cs e :
  value (DisMax.IntersectResult_DisMaxScorer call b cs e)
  = weight b * fold_left (fun acc c => acc + value (call c (child_handle e))) cs 0.
Proof.
  unfold DisMax.IntersectResult_DisMaxScorer, child_handle.
  destruct (is_null e); rewrite !value_bind.
  - rewrite value_foldM. reflexivity.
  - rewrite value_foldM. reflexivity.
Qed.

Lemma value_MAX_call (score : float) (c : W float) :
  value (DisMax.MAX_call score c) = MAX score (value c).
Proof.
  unfold DisMax.MAX_call, MAX. rewrite value_bind.
  destruct (value c <? score); reflexivity.
Qed.

Lemma DisMax_union_value call b cs e :
  value (DisMax.UnionResult_DisMaxScorer call b cs e)
  = weight b * fold_left (fun acc c => MAX acc (value (call c (child_handle e)))) cs 0.
Proof.
  unfold DisMax.UnionResult_DisMaxScorer, child_handle.
  destruct (is_null e); rewrite !value_bind.
  - rewrite value_foldM. cbn [value ret fst]. f_equal.
    apply fold_left_ext_in. intros acc c _. apply value_MAX_call.
  - rewrite value_foldM. cbn [value ret fst]. f_equal.
    apply fold_left_ext_in. intros acc c _.
    rewrite !value_bind. apply value_MAX_call.
Qed.

Lemma DisMax_explain_irrelevant (r : IndexResult) (e : eptr) :
  value (DisMax.DisMaxScorer_node r e) = value (DisMax.DisMaxScorer_node r PNull).
Proof.
  revert e. induction r as [b t | b | b cs IH | b cs IH | b cs IH]
    using IndexResult_tree_ind; intros e;
    try reflexivity;
    cbn [DisMax.DisMaxScorer_node];
    rewrite ?DisMax_intersect_value, ?DisMax_union_value; f_equal;
    apply fold_left_ext_in; intros acc c Hc; f_equal;
    rewrite Forall_forall in IH;
    rewrite (IH c Hc (child_handle e)), (IH c Hc (child_handle PNull));
    reflexivity.
Qed.

End ScoreFacts.

(* ===================================================================== *)
(** * The claims *)

Section ScoringClaims.
Import Num WriterFacts NumFacts ScoreFacts.
Local Open Scope float_scope.

(** C6: under TF-IDF a Term leaf contributes exactly [weight * freq * idf]
    (the idf being 0 when the node carries no term record) and a leaf
    without term statistics exactly [weight * freq]; the per-node layer
    applies neither proximity nor normalisation, whatever the explain
    handle. *)
Theorem TFIDF_leaf_contribution :
  forall (b : ResultBase) (e : eptr),
    (forall t : RSQueryTerm,
        value (TFIDF.TFIDFScorer_node (TermResult b (Some t)) e)
        = weight b * of_Z (freq b) * idf t)
    /\ value (TFIDF.TFIDFScorer_node (TermResult b None) e)
       = weight b * of_Z (freq b) * 0
    /\ value (TFIDF.TFIDFScorer_node (VirtualResult b) e)
       = weight b * of_Z (freq b).
Proof.
  intros b e. repeat split.
Qed.

(** C5: under BM25, with [b = 0.5] and [k1] the single-precision 1.2, a
    Term leaf contributes [idf * f / (f + k1 * (1 - b + b * avgDocLen))]
    with [f] its frequency as a double (and idf 0 when it carries no term
    record); a leaf without term statistics contributes
    [weight * f / (f + k1 * (1 - b + b * avgDocLen))] when [f > 0] and
    exactly 0 when [f = 0]. *)
Theorem BM25_leaf_contribution :
  forall (rb : ResultBase) (args : ScorerArgs) (e : eptr),
    let f := of_Z (freq rb) in
    let avg := avgDocLen (indexStats args) in
    BM25.b = 0.5
    /\ BM25.k1 = 0x1.333334p+0
    /\ (1.2 <? BM25.k1) = true /\ (BM25.k1 <? 1.2000001) = true
    /\ (forall t : RSQueryTerm,
          value (BM25.BM25Scorer_node (TermResult rb (Some t)) args e)
          = idf t * f / (f + BM25.k1 * (1 - BM25.b + BM25.b * avg)))
    /\ value (BM25.BM25Scorer_node (TermResult rb None) args e)
       = 0 * f / (f + BM25.k1 * (1 - BM25.b + BM25.b * avg))
    /\ ((0 <? f) = true ->
          value (BM25.BM25Scorer_node (VirtualResult rb) args e)
          = weight rb * f / (f + BM25.k1 * (1 - BM25.b + BM25.b * avg)))
    /\ ((0 < freq rb < 2 ^ 53)%Z ->
          value (BM25.BM25Scorer_node (VirtualResult rb) args e)
          = weight rb * f / (f + BM25.k1 * (1 - BM25.b + BM25.b * avg)))
    /\ ((f =? 0) = true ->
          value (BM25.BM25Scorer_node (VirtualResult rb) args e) = 0)
    /\ (freq rb = 0%Z ->
          value (BM25.BM25Scorer_node (VirtualResult rb) args e) = 0).
Proof.
  intros rb args e f avg.
  assert (Hpos : (0 <? f) = true ->
            value (BM25.BM25Scorer_node (VirtualResult rb) args e)
            = weight rb * f / (f + BM25.k1 * (1 - BM25.b + BM25.b * avg))).
  { intros Hf. cbn [BM25.BM25Scorer_node]. unfold BM25.IndexResult_BM25Scorer.
    fold f. rewrite (@gt0_truthy _ Hf). reflexivity. }
  assert (Hzero : (f =? 0) = true ->
            value (BM25.BM25Scorer_node (VirtualResult rb) args e) = 0).
  { intros Hf. cbn [BM25.BM25Scorer_node]. unfold BM25.IndexResult_BM25Scorer, truthy.
    fold f. rewrite Hf. reflexivity. }
  repeat split; try assumption.
  - intros Hr. apply Hpos. apply of_Z_pos_gt0. exact Hr.
  - intros Hr. apply Hzero. subst f. rewrite Hr. reflexivity.
Qed.

Lemma BM25_leaf_contribution_witness :
  let rb := {| weight := 2; freq := 3; offsets := [] |} in
  let args := {| indexStats := {| avgDocLen := 10 |}; args_payload := [];
                 explain := PNull |} in
  (0 <? of_Z 3) = true
  /\ (0 < 3 < 2 ^ 53)%Z
  /\ value (BM25.BM25Scorer_node (VirtualResult rb) args PNull)
     = 2 * of_Z 3 / (of_Z 3 + BM25.k1 * (1 - BM25.b + BM25.b * 10))
  /\ (of_Z 0 =? 0) = true
  /\ value (BM25.BM25Scorer_node
              (VirtualResult {| weight := 2; freq := 0; offsets := [] |}) args PNull)
     = 0.
Proof.
  intros rb args.
  pose proof (BM25_leaf_contribution rb args PNull) as H.
  pose proof (BM25_leaf_contribution
                {| weight := 2; freq := 0; offsets := [] |} args PNull) as H0.
  cbn zeta in H, H0.
  destruct H as (_ & _ & _ & _ & _ & _ & Hpos & _).
  destruct H0 as (_ & _ & _ & _ & _ & _ & _ & _ & Hz & _).
  split; [reflexivity|]. split; [lia|].
  split; [apply Hpos; reflexivity|].
  split; [reflexivity|]. apply Hz. reflexivity.
Defined.

(** C1: both top-level TF-IDF scorers return 0 when the document's static
    score is 0, whatever the tree; otherwise, with the raw tree score
    [raw] and [tfidf = score * raw / norm], where [norm] is [maxFreq] for
    the default scorer and [len] for the doc-length-normalised one, they
    return 0 when [tfidf] is below the threshold (whatever the proximity
    function is) and [tfidf / slop] otherwise. *)
Theorem TFIDF_top_level :
  forall (MinOffsetDelta : IndexResult -> Z) (args : ScorerArgs) (r : IndexResult)
         (dmd : RSDocumentMetadata) (minScore : float),
    let raw := value (TFIDF.TFIDFScorer_node r (explain args)) in
    let tfidfA := score dmd * raw / of_Z (maxFreq dmd) in
    let tfidfB := score dmd * raw / of_Z (len dmd) in
    let A := value (TFIDF.TFIDFScorer MinOffsetDelta args r dmd minScore) in
    let B := value (TFIDF.TFIDFNormDocLenScorer MinOffsetDelta args r dmd minScore) in
    ((score dmd =? 0) = true -> A = 0 /\ B = 0)
    /\ ((score dmd =? 0) = false ->
          ((tfidfA <? minScore) = true -> A = 0)
          /\ ((tfidfA <? minScore) = false ->
                A = tfidfA / of_Z (MinOffsetDelta r))
          /\ ((tfidfB <? minScore) = true -> B = 0)
          /\ ((tfidfB <? minScore) = false ->
                B = tfidfB / of_Z (MinOffsetDelta r))).
Proof.
  intros M args r dmd minScore raw tfidfA tfidfB A B.
  subst A B.
  unfold TFIDF.TFIDFScorer, TFIDF.TFIDFNormDocLenScorer,
    TFIDF.IndexResult_TFIDFScorer_norm.
  change (NORM_MAXFREQ =? NORM_MAXFREQ)%Z with true.
  change (NORM_DOCLEN =? NORM_MAXFREQ)%Z with false.
  cbv iota.
  split.
  - intros Hs. rewrite Hs. split; reflexivity.
  - intros Hs. rewrite Hs. rewrite !value_bind.
    fold raw. fold tfidfA. fold tfidfB.
    repeat split; intros Hc; rewrite Hc; reflexivity.
Qed.

Lemma TFIDF_top_level_witness :
  let slop := fun _ : IndexResult => 2%Z in
  let args := {| indexStats := {| avgDocLen := 10 |}; args_payload := [];
                 explain := PNull |} in
  let r := TermResult {| weight := 1; freq := 4; offsets := [] |}
                      (Some {| idf := 3 |}) in
  let dmd := {| score := 1; maxFreq := 4; len := 8; payload := None |} in
  let dmd0 := {| score := 0; maxFreq := 4; len := 8; payload := None |} in
  value (TFIDF.TFIDFScorer slop args r dmd0 1) = 0
  /\ value (TFIDF.TFIDFScorer slop args r dmd 1) = 1.5
  /\ value (TFIDF.TFIDFNormDocLenScorer slop args r dmd 1) = 0.75
  /\ value (TFIDF.TFIDFScorer slop args r dmd 100) = 0.
Proof.
  intros slop args r dmd dmd0.
  pose proof (TFIDF_top_level slop args r dmd 1) as H.
  pose proof (TFIDF_top_level slop args r dmd0 1) as H0.
  pose proof (TFIDF_top_level slop args r dmd 100) as H100.
  cbn zeta in H, H0, H100.
  destruct H as [_ H]. destruct H0 as [H0 _]. destruct H100 as [_ H100].
  specialize (H eq_refl). specialize (H0 eq_refl). specialize (H100 eq_refl).
  destruct H as (_ & HA & _ & HB). destruct H0 as [H0 _].
  destruct H100 as (H100 & _).
  split; [exact H0|].
  split; [rewrite HA by reflexivity; reflexivity|].
  split; [rewrite HB by reflexivity; reflexivity|].
  apply H100. reflexivity.
Defined.

(** C10: the top-level BM25 scorer has no test of the document's static
    score, yet returns zero whenever that score is 0: for a finite raw tree
    score the product [score * raw] is a zero, which is either cut off by
    the threshold or divided by a non-zero [int] slop and still zero. *)
Theorem BM25_zero_document_score :
  forall (MinOffsetDelta : IndexResult -> Z) (args : ScorerArgs) (r : IndexResult)
         (dmd : RSDocumentMetadata) (minScore : float),
    (score dmd =? 0) = true ->
    finite (value (BM25.BM25Scorer_node r args (explain args))) = true ->
    MinOffsetDelta r <> 0%Z ->
    (- 2 ^ 31 <= MinOffsetDelta r < 2 ^ 31)%Z ->
    (value (BM25.BM25Scorer MinOffsetDelta args r dmd minScore) =? 0) = true.
Proof.
  intros M args r dmd minScore Hs Hfin Hslop Hint.
  unfold BM25.BM25Scorer. rewrite !value_bind.
  set (raw := value (BM25.BM25Scorer_node r args (explain args))) in *.
  apply eqb_zero_true in Hs. destruct Hs as [s Hs].
  destruct (@mul_zero_l _ _ _ Hs Hfin) as [s' Hprod].
  destruct (score dmd * raw <? minScore).
  - reflexivity.
  - cbn [value]. rewrite !value_bind. cbn [value ret fst].
    destruct (@of_Z_finite_nonzero (M r)) as (sy & m & e & Hy);
      [assumption | lia |].
    destruct (@div_zero_l _ _ _ _ _ _ Hprod Hy) as [s'' Hq].
    apply eqb_zero_true. eauto.
Qed.

Lemma BM25_zero_document_score_witness :
  let slop := fun _ : IndexResult => 3%Z in
  let args := {| indexStats := {| avgDocLen := 10 |}; args_payload := [];
                 explain := PNull |} in
  let r := UnionResult {| weight := 1; freq := 1; offsets := [] |}
             [TermResult {| weight := 1; freq := 4; offsets := [] |}
                         (Some {| idf := 3 |});
              VirtualResult {| weight := 2; freq := 1; offsets := [] |}] in
  let dmd0 := {| score := 0; maxFreq := 4; len := 8; payload := None |} in
  (value (BM25.BM25Scorer slop args r dmd0 (-1)) =? 0) = true.
Proof.
  intros slop args r dmd0.
  apply (BM25_zero_document_score slop args r dmd0 (-1)).
  - reflexivity.
  - vm_compute. reflexivity.
  - subst slop. cbv beta. discriminate.
  - subst slop. cbv beta. lia.
Defined.

End ScoringClaims.

Section TreeClaims.
Import Num WriterFacts NumFacts OrderFacts ScoreFacts.
Local Open Scope float_scope.

Lemma BM25_handle_irrelevant (r : IndexResult) (args : ScorerArgs) (e : eptr) :
  value (BM25.BM25Scorer_node r args e) = value (BM25.BM25Scorer_node r args PNull).
Proof.
  destruct args as [st pl ex].
  exact (BM25_explain_irrelevant r {| indexStats := st; args_payload := pl;
                                      explain := ex |} e ex).
Qed.

Lemma contribution_handle_irrelevant alg args e r :
  contribution alg args e r = contribution alg args PNull r.
Proof.
  destruct alg; cbn [contribution].
  - apply TFIDF_explain_irrelevant.
  - apply BM25_handle_irrelevant.
  - apply DisMax_explain_irrelevant.
Qed.

Lemma sum_of_children alg args (e e' : eptr) (g : IndexResult -> eptr) cs :
  fold_left (fun acc c => acc + contribution alg args (g c) c) cs 0
  = sum (map (contribution alg args e') cs).
Proof.
  unfold sum. rewrite <- fold_left_map_acc.
  apply fold_left_ext_in. intros acc c _. f_equal.
  rewrite contribution_handle_irrelevant.
  symmetry. apply contribution_handle_irrelevant.
Qed.

(** C9, at a failing input: the registered TF-IDF scorer on a Union node
    of weight 1 with one Term child (weight 1, frequency 2, idf 2), document
    score 1, maxFreq 1, threshold 0, slop 1; and the registered DisMax scorer
    on an Intersect node with the same child.  With no explain handle the
    runs return 4 and 2.  With the handle [ScorerArgs] creates when an
    explanation is requested, the explaining loop hands the child a local
    pointer that was never initialised, the child writes through it and the
    loop pushes it: the run is undefined and returns no score to compare
    with. *)
Theorem explain_run_is_undefined :
  let M := fun _ : IndexResult => 1%Z in
  let args := fun e => {| indexStats := {| avgDocLen := 1 |}; args_payload := [];
                          explain := e |} in
  let leaf := TermResult {| weight := 1; freq := 2; offsets := [] |}
                         (Some {| idf := 2 |}) in
  let rb := {| weight := 1; freq := 1; offsets := [] |} in
  let dmd := {| score := 1; maxFreq := 1; len := 1; payload := None |} in
  outcome (run_scorer M SC_TFIDF (args PNull) (UnionResult rb [leaf]) dmd 0) = Some 4
  /\ outcome (run_scorer M SC_TFIDF (args PRoot) (UnionResult rb [leaf]) dmd 0) = None
  /\ outcome (run_scorer M SC_DISMAX (args PNull) (IntersectResult rb [leaf]) dmd 0)
     = Some 2
  /\ outcome (run_scorer M SC_DISMAX (args PRoot) (IntersectResult rb [leaf]) dmd 0)
     = None.
Proof.
  repeat split; vm_compute; reflexivity.
Qed.

(** C2, as stated: every composite node under every algorithm its class
    does not override contributes weight times the sum of its children's
    contributions.  A plain Aggregate node under DisMax has no aggregate
    method to run and falls back to [IndexResult::DisMaxScorer]: with
    frequency 0 and one child contributing 1, it contributes 0. *)
Lemma generic_sum_rule_fails_for_DisMax_on_Aggregate :
  ~ (forall (alg : Algorithm) (args : ScorerArgs) (r : IndexResult),
       is_composite r = true -> defines_override r alg = false ->
       contribution alg args PNull r
       = weight (base r) * sum (map (contribution alg args PNull) (children_of r))).
Proof.
  intros H.
  specialize (H ALG_DISMAX
    {| indexStats := {| avgDocLen := 1 |}; args_payload := []; explain := PNull |}
    (AggregateResult {| weight := 1; freq := 0; offsets := [] |}
       [VirtualResult {| weight := 1; freq := 1; offsets := [] |}])
    eq_refl eq_refl).
  apply (f_equal Prim2SF) in H. vm_compute in H. discriminate H.
Qed.

(** C2, amended: under TF-IDF and BM25 every composite node (Aggregate,
    Intersect, Union) contributes its weight times the sum of its children's
    contributions, and so does Intersect under DisMax; Union under DisMax
    contributes its weight times the running [MAX] of its children's
    contributions started at 0, which for a non-empty list of non-negative
    contributions is their maximum.  The explain handles [e] of the node
    and [e'] of the children are arbitrary. *)
Theorem composite_contribution :
  forall (args : ScorerArgs) (e e' : eptr) (rb : ResultBase) (cs : list IndexResult),
    (forall (alg : Algorithm) (r : IndexResult),
        r = AggregateResult rb cs \/ r = IntersectResult rb cs \/ r = UnionResult rb cs ->
        alg <> ALG_DISMAX ->
        contribution alg args e r
        = weight rb * sum (map (contribution alg args e') cs))
    /\ contribution ALG_DISMAX args e (IntersectResult rb cs)
       = weight rb * sum (map (contribution ALG_DISMAX args e') cs)
    /\ contribution ALG_DISMAX args e (UnionResult rb cs)
       = weight rb * maximum (map (contribution ALG_DISMAX args e') cs)
    /\ (cs <> [] ->
        Forall (fun c => (0 <=? contribution ALG_DISMAX args e' c) = true) cs ->
        let m := maximum (map (contribution ALG_DISMAX args e') cs) in
        (exists c, In c cs /\ contribution ALG_DISMAX args e' c = m)
        /\ Forall (fun c => (contribution ALG_DISMAX args e' c <=? m) = true) cs).
Proof.
  intros args e e' rb cs.
  split; [|split; [|split]].
  - intros alg r Hr Halg.
    destruct alg; [| |congruence].
    + assert (Hv : value (TFIDF.AggregateResult_TFIDFScorer
                            TFIDF.TFIDFScorer_node rb cs e)
                   = weight rb * sum (map (contribution ALG_TFIDF args e') cs)).
      { rewrite TFIDF_aggregate_value. f_equal.
        apply (sum_of_children ALG_TFIDF args e e' (fun _ => child_handle e)). }
      destruct Hr as [-> | [-> | ->]]; exact Hv.
    + assert (Hv : value (BM25.AggregateResult_BM25Scorer
                            BM25.BM25Scorer_node rb cs args e)
                   = weight rb * sum (map (contribution ALG_BM25 args e') cs)).
      { rewrite BM25_aggregate_value, mul_comm. f_equal.
        apply (sum_of_children ALG_BM25 args e e'
                 (fun _ => if is_null e then PNull else args_explain args)). }
      destruct Hr as [-> | [-> | ->]]; exact Hv.
  - cbn [contribution DisMax.DisMaxScorer_node].
    rewrite DisMax_intersect_value. f_equal.
    apply (sum_of_children ALG_DISMAX args e e' (fun _ => child_handle e)).
  - cbn [contribution DisMax.DisMaxScorer_node].
    rewrite DisMax_union_value. f_equal.
    unfold maximum. rewrite <- fold_left_map_acc.
    apply fold_left_ext_in. intros acc c _. f_equal.
    rewrite DisMax_explain_irrelevant. symmetry. apply DisMax_explain_irrelevant.
  - intros Hne Hpos m.
    destruct (maximum_is_max (map (contribution ALG_DISMAX args e') cs)) as [Hin Hall].
    + destruct cs; [congruence | discriminate].
    + rewrite Forall_map. exact Hpos.
    + split.
      * apply in_map_iff in Hin. destruct Hin as (c & Hc & Hin). eauto.
      * rewrite Forall_map in Hall. exact Hall.
Qed.

Lemma composite_contribution_witness :
  let args := {| indexStats := {| avgDocLen := 10 |}; args_payload := [];
                 explain := PNull |} in
  let rb := {| weight := 2; freq := 1; offsets := [] |} in
  let cs := [VirtualResult {| weight := 1; freq := 3; offsets := [] |};
             VirtualResult {| weight := 1; freq := 5; offsets := [] |}] in
  contribution ALG_TFIDF args PRoot (UnionResult rb cs) = 16
  /\ contribution ALG_DISMAX args PRoot (UnionResult rb cs) = 10
  /\ (exists c, In c cs /\ contribution ALG_DISMAX args PNull c = 5)
  /\ Forall (fun c => (contribution ALG_DISMAX args PNull c <=? 5) = true) cs.
Proof.
  intros args rb cs.
  destruct (composite_contribution args PRoot PNull rb cs)
    as (Hsum & _ & Hmax & Hismax).
  split; [|split].
  - rewrite (Hsum ALG_TFIDF (UnionResult rb cs)).
    + reflexivity.
    + right; right; reflexivity.
    + discriminate.
  - rewrite Hmax. reflexivity.
  - apply Hismax.
    + discriminate.
    + repeat constructor.
Defined.

End TreeClaims.

Section ProximityClaims.
Import Num WriterFacts NumFacts.
Local Open Scope float_scope.

(** C7: the slop that the top-level TF-IDF and BM25 scorers divide by is
    never 0: a minimum gap of 0 is reported as 1, the divisor is a finite
    non-zero double, and a score that passes the threshold is the quotient
    by it. *)
Theorem slop_never_zero :
  forall (r : IndexResult),
    Proximity.MinOffsetDelta r <> 0%Z
    /\ (Proximity.min_gap r = Some 0%Z -> Proximity.MinOffsetDelta r = 1%Z)
    /\ ((Z.abs (Proximity.MinOffsetDelta r) < 2 ^ 53)%Z ->
        exists s m e,
          Prim2SF (of_Z (Proximity.MinOffsetDelta r)) = S754_finite s m e)
    /\ (forall (args : ScorerArgs) (dmd : RSDocumentMetadata) (minScore : float),
          let raw := value (BM25.BM25Scorer_node r args (explain args)) in
          (score dmd * raw <? minScore) = false ->
          value (BM25.BM25Scorer Proximity.MinOffsetDelta args r dmd minScore)
          = score dmd * raw / of_Z (Proximity.MinOffsetDelta r))
    /\ (forall (args : ScorerArgs) (dmd : RSDocumentMetadata) (minScore : float),
          let raw := value (TFIDF.TFIDFScorer_node r (explain args)) in
          (score dmd =? 0) = false ->
          (score dmd * raw / of_Z (maxFreq dmd) <? minScore) = false ->
          value (TFIDF.TFIDFScorer Proximity.MinOffsetDelta args r dmd minScore)
          = score dmd * raw / of_Z (maxFreq dmd) / of_Z (Proximity.MinOffsetDelta r)).
Proof.
  intros r.
  assert (Hnz : Proximity.MinOffsetDelta r <> 0%Z).
  { unfold Proximity.MinOffsetDelta.
    destruct (Proximity.min_gap r) as [[|p|p]|]; discriminate. }
  split; [exact Hnz|]. split; [|split; [|split]].
  - intros Hg. unfold Proximity.MinOffsetDelta. rewrite Hg. reflexivity.
  - intros Hb. apply of_Z_finite_nonzero; assumption.
  - intros args dmd minScore raw Hc.
    unfold BM25.BM25Scorer. rewrite !value_bind. fold raw. rewrite Hc. reflexivity.
  - intros args dmd minScore raw Hs Hc.
    unfold TFIDF.TFIDFScorer, TFIDF.IndexResult_TFIDFScorer_norm.
    rewrite Hs. rewrite !value_bind. fold raw.
    change (NORM_MAXFREQ =? NORM_MAXFREQ)%Z with true. cbv iota.
    rewrite Hc. reflexivity.
Qed.

Lemma slop_never_zero_witness :
  let r := IntersectResult {| weight := 1; freq := 2; offsets := [] |}
             [TermResult {| weight := 1; freq := 2; offsets := [4%Z; 4%Z; 9%Z] |}
                         (Some {| idf := 2 |});
              VirtualResult {| weight := 1; freq := 1; offsets := [7%Z] |}] in
  let args := {| indexStats := {| avgDocLen := 10 |}; args_payload := [];
                 explain := PNull |} in
  let dmd := {| score := 1; maxFreq := 2; len := 8; payload := None |} in
  Proximity.min_gap r = Some 0%Z
  /\ Proximity.MinOffsetDelta r = 1%Z
  /\ (exists s m e, Prim2SF (of_Z (Proximity.MinOffsetDelta r)) = S754_finite s m e)
  /\ value (TFIDF.TFIDFScorer Proximity.MinOffsetDelta args r dmd 0) = 2.5.
Proof.
  intros r args dmd.
  destruct (slop_never_zero r) as (_ & Hone & Hfin & _ & HT).
  split; [reflexivity|]. split; [apply Hone; reflexivity|].
  split; [apply Hfin; vm_compute; reflexivity|].
  rewrite (HT args dmd 0%float) by reflexivity. reflexivity.
Defined.

End ProximityClaims.

(** ** The Hamming scorer *)

Module HammingFacts.
Import Hamming.
Local Open Scope Z_scope.

Lemma table_is_popcount_check :
  forallb (fun n => nth n bitsinbyte 0 =? popcount8 (Z.of_nat n)) (seq 0 256) = true.
Proof. vm_compute. reflexivity. Qed.

Lemma table_is_popcount (v : Z) :
  0 <= v < 256 -> nth (Z.to_nat v) bitsinbyte 0 = popcount8 v.
Proof.
  intros Hv. pose proof table_is_popcount_check as H.
  rewrite forallb_forall in H.
  specialize (H (Z.to_nat v)). rewrite Z2Nat.id in H by lia.
  apply Z.eqb_eq, H, in_seq. lia.
Qed.

Lemma filter_ext_in_length {A} (f g : A -> bool) (l : list A) :
  (forall a, In a l -> f a = g a) ->
  List.length (filter f l) = List.length (filter g l).
Proof.
  intros H. rewrite (filter_ext_in f g l H). reflexivity.
Qed.

Lemma popcount8_xor (x y : Z) : popcount8 (uchar (Z.lxor x y)) = byte_diff x y.
Proof.
  unfold popcount8, byte_diff, uchar. f_equal.
  apply filter_ext_in_length. intros i Hi. apply in_seq in Hi.
  change 256 with (2 ^ 8).
  rewrite Z.mod_pow2_bits_low by lia.
  apply Z.lxor_spec.
Qed.

Lemma table_lookup (x y : Z) :
  nth (Z.to_nat (uchar (Z.lxor x y))) bitsinbyte 0 = byte_diff x y.
Proof.
  rewrite table_is_popcount; [apply popcount8_xor|].
  unfold uchar. apply Z.mod_pos_bound. lia.
Qed.

Lemma byte_diff_range (x y : Z) : 0 <= byte_diff x y <= 8.
Proof.
  unfold byte_diff.
  pose proof (filter_length_le
    (fun i => xorb (Z.testbit x (Z.of_nat i)) (Z.testbit y (Z.of_nat i))) (seq 0 8)) as H.
  rewrite length_seq in H. lia.
Qed.

Lemma byte_diff_same (x : Z) : byte_diff x x = 0.
Proof.
  unfold byte_diff.
  rewrite (filter_ext_in _ (fun _ => false)).
  - cbn. reflexivity.
  - intros i _. apply xorb_nilpotent.
Qed.

Lemma bitsDiffering_same (a : list Z) : bitsDiffering a a = 0.
Proof.
  induction a as [|x a IH]; [reflexivity|].
  cbn [bitsDiffering]. rewrite byte_diff_same, IH. reflexivity.
Qed.

Lemma bitsDiffering_range (a b : list Z) :
  List.length a = List.length b ->
  0 <= bitsDiffering a b <= 8 * Z.of_nat (List.length a).
Proof.
  revert b. induction a as [|x a IH]; intros [|y b] Hl; try discriminate.
  - cbn. lia.
  - cbn [bitsDiffering List.length]. injection Hl as Hl.
    pose proof (IH b Hl). pose proof (byte_diff_range x y). lia.
Qed.

(** The indexed loop, peeled at the front. *)
Lemma count_loop_cons (F : Z -> Z -> Z -> Z) x a y b n acc :
  fold_left (fun nbits i => F nbits (nth i (x :: a) 0) (nth i (y :: b) 0))
            (seq 0 (S n)) acc
  = fold_left (fun nbits i => F nbits (nth i a 0) (nth i b 0))
              (seq 0 n) (F acc x y).
Proof.
  cbn [seq fold_left nth]. rewrite <- seq_shift.
  generalize (F acc x y) as acc'. generalize (seq 0 n) as l.
  induction l as [|i l IH]; intros acc'; [reflexivity|].
  cbn [map fold_left nth]. apply IH.
Qed.

Lemma count_loop (a b : list Z) (acc : Z) :
  List.length a = List.length b ->
  0 <= acc -> acc + 8 * Z.of_nat (List.length a) < 2 ^ 64 ->
  fold_left
    (fun nbits i =>
       size_t (nbits + nth (Z.to_nat (uchar (Z.lxor (nth i a 0) (nth i b 0)))) bitsinbyte 0))
    (seq 0 (List.length a)) acc
  = acc + bitsDiffering a b.
Proof.
  revert b acc. induction a as [|x a IH]; intros [|y b] acc Hl Hacc Hb;
    try discriminate.
  - cbn. lia.
  - cbn [List.length]. injection Hl as Hl.
    rewrite (count_loop_cons
      (fun nbits u v =>
         size_t (nbits + nth (Z.to_nat (uchar (Z.lxor u v))) bitsinbyte 0))).
    rewrite table_lookup.
    pose proof (byte_diff_range x y) as Hd.
    cbn [List.length] in Hb.
    assert (Hs : size_t (acc + byte_diff x y) = acc + byte_diff x y).
    { unfold size_t. apply Z.mod_small. lia. }
    rewrite Hs, IH by lia.
    cbn [bitsDiffering]. lia.
Qed.

Lemma count_bits_spec (a b : list Z) :
  List.length a = List.length b ->
  8 * Z.of_nat (List.length a) < 2 ^ 64 ->
  count_bits a b (List.length a) = bitsDiffering a b.
Proof.
  intros Hl Hb. unfold count_bits. rewrite count_loop by lia. lia.
Qed.

(** Equal buffers need no bound: the counter never leaves 0. *)
Lemma count_bits_same (a : list Z) : count_bits a a (List.length a) = 0.
Proof.
  unfold count_bits.
  assert (H : forall l, fold_left
    (fun nbits i =>
       size_t (nbits + nth (Z.to_nat (uchar (Z.lxor (nth i a 0) (nth i a 0)))) bitsinbyte 0))
    l 0 = 0).
  { induction l as [|i l IH]; [reflexivity|].
    cbn [fold_left]. rewrite table_lookup, byte_diff_same. exact IH. }
  apply H.
Qed.

End HammingFacts.

Section HammingClaims.
Import Num WriterFacts HammingFacts.

(** C4: the Hamming scorer returns 0 unless the query payload and the
    document payload are both non-empty and of equal length; otherwise it
    returns [1 / (bitsDiffering + 1)], [bitsDiffering] being the number of
    bit positions at which the two buffers differ.  Two equal non-empty
    payloads score exactly 1, and the one-byte payloads 0x00 and 0xFF score
    1/9. *)
Theorem Hamming_score :
  forall (args : ScorerArgs) (h : IndexResult) (dmd : RSDocumentMetadata)
         (minScore : float),
    let q := args_payload args in
    let result := value (Hamming.HammingDistanceScorer args h dmd minScore) in
    (payload dmd = None -> result = 0%float)
    /\ (forall d, payload dmd = Some d ->
          d = [] \/ q = [] \/ List.length d <> List.length q ->
          result = 0%float)
    /\ (forall d, payload dmd = Some d -> d <> [] -> q <> [] ->
          List.length d = List.length q ->
          (8 * Z.of_nat (List.length q) + 1 < 2 ^ 64)%Z ->
          result = (1 / of_Z (Hamming.bitsDiffering q d + 1))%float)
    /\ (payload dmd = Some q -> q <> [] -> result = 1%float)
    /\ (payload dmd = Some [255%Z] -> q = [0%Z] -> result = (1 / 9)%float).
Proof.
  intros args h dmd minScore q result. subst result.
  unfold Hamming.HammingDistanceScorer. fold q.
  split; [|split; [|split; [|split]]].
  - intros Hp. rewrite Hp. reflexivity.
  - intros d Hp Hbad. rewrite Hp.
    assert (Hm : ((Z.of_nat (List.length d) =? 0)%Z
                  || negb (Z.of_nat (List.length d) =? Z.of_nat (List.length q))%Z)
                 = true).
    { apply orb_true_iff.
      destruct Hbad as [-> | [Hq | Hlen]].
      - left. reflexivity.
      - destruct d as [|x d]; [left; reflexivity|]. right.
        rewrite Hq. reflexivity.
      - right. apply negb_true_iff, Z.eqb_neq. lia. }
    rewrite Hm. reflexivity.
  - intros d Hp Hd Hq Hlen Hb. rewrite Hp.
    assert (Hm : ((Z.of_nat (List.length d) =? 0)%Z
                  || negb (Z.of_nat (List.length d) =? Z.of_nat (List.length q))%Z)
                 = false).
    { apply orb_false_iff. split.
      - apply Z.eqb_neq. destruct d; [congruence | cbn [List.length]; lia].
      - apply negb_false_iff, Z.eqb_eq. lia. }
    rewrite Hm. rewrite value_bind. cbn [value ret fst].
    rewrite count_bits_spec by lia.
    pose proof (bitsDiffering_range q d (eq_sym Hlen)) as Hr.
    unfold Hamming.size_t. rewrite Z.mod_small by lia. reflexivity.
  - intros Hp Hq. rewrite Hp.
    assert (Hm : ((Z.of_nat (List.length q) =? 0)%Z
                  || negb (Z.of_nat (List.length q) =? Z.of_nat (List.length q))%Z)
                 = false).
    { apply orb_false_iff. split.
      - apply Z.eqb_neq. destruct q; [congruence | cbn [List.length]; lia].
      - apply negb_false_iff, Z.eqb_eq. reflexivity. }
    rewrite Hm. rewrite value_bind. cbn [value ret fst].
    rewrite count_bits_same. reflexivity.
  - intros Hp Hq. rewrite Hp, Hq. reflexivity.
Qed.

Lemma Hamming_score_witness :
  let args := {| indexStats := {| avgDocLen := 1 |};
                 args_payload := [1%Z; 2%Z; 255%Z]; explain := PNull |} in
  let h := VirtualResult {| weight := 1; freq := 1; offsets := [] |} in
  let doc p := {| score := 1; maxFreq := 1; len := 1; payload := p |} in
  value (Hamming.HammingDistanceScorer args h (doc None) 0) = 0%float
  /\ value (Hamming.HammingDistanceScorer args h (doc (Some [1%Z; 2%Z])) 0) = 0%float
  /\ value (Hamming.HammingDistanceScorer args h (doc (Some [3%Z; 2%Z; 0%Z])) 0)
     = (1 / 10)%float
  /\ value (Hamming.HammingDistanceScorer args h (doc (Some [1%Z; 2%Z; 255%Z])) 0)
     = 1%float.
Proof.
  intros args h doc.
  split; [|split; [|split]].
  - apply (Hamming_score args h (doc None) 0%float). reflexivity.
  - destruct (Hamming_score args h (doc (Some [1%Z; 2%Z])) 0%float) as (_ & H & _).
    apply (H [1%Z; 2%Z]); [reflexivity|]. right; right. discriminate.
  - destruct (Hamming_score args h (doc (Some [3%Z; 2%Z; 0%Z])) 0%float)
      as (_ & _ & H & _).
    rewrite (H [3%Z; 2%Z; 0%Z]);
      [reflexivity | reflexivity | discriminate | discriminate | reflexivity
      | vm_compute; reflexivity].
  - destruct (Hamming_score args h (doc (Some [1%Z; 2%Z; 255%Z])) 0%float)
      as (_ & _ & _ & H & _).
    apply H; [reflexivity | discriminate].
Defined.

End HammingClaims.

(** ** The expanders *)

Module ExpanderFacts.
Import Expander.
Local Open Scope Z_scope.

Lemma substring_all (s : string) : substring 0 (String.length s) s = s.
Proof. induction s as [|c s IH]; cbn; [reflexivity | now rewrite IH]. Qed.

Lemma strndup_all (s : string) :
  nul_free s = true -> strndup s (String.length s) = s.
Proof.
  induction s as [|c s IH]; cbn; [reflexivity|].
  intros H. apply andb_true_iff in H. destruct H as [Hc Hs].
  apply negb_true_iff in Hc. rewrite Hc, IH by assumption. reflexivity.
Qed.

Lemma ascii_sub_nonzero (c1 c2 : ascii) :
  Ascii.eqb c1 c2 = false ->
  Z.of_nat (nat_of_ascii c1) - Z.of_nat (nat_of_ascii c2) <> 0.
Proof.
  intros Hne Hz. apply Ascii.eqb_neq in Hne. apply Hne.
  rewrite <- (ascii_nat_embedding c1), <- (ascii_nat_embedding c2).
  f_equal. lia.
Qed.

(** On a NUL-free token of the same length, [strncmp] over the whole
    token is 0 exactly for the same text. *)
Lemma strncmp_zero_iff (s1 s2 : string) :
  String.length s1 = String.length s2 -> nul_free s2 = true ->
  (strncmp s1 s2 (String.length s2) = 0 <-> s1 = s2).
Proof.
  revert s1. induction s2 as [|c2 s2 IH]; intros [|c1 s1] Hl Hn;
    try discriminate.
  - cbn. tauto.
  - cbn [String.length strncmp c_head c_tail].
    cbn in Hn. apply andb_true_iff in Hn. destruct Hn as [Hc Hn].
    apply negb_true_iff in Hc. injection Hl as Hl.
    destruct (Ascii.eqb c1 c2) eqn:E.
    + apply Ascii.eqb_eq in E. subst c1. rewrite Hc.
      rewrite (IH s1 Hl Hn). split; [intros ->; reflexivity|].
      intros H. injection H as H. exact H.
    + split.
      * intros H. exfalso. exact (ascii_sub_nonzero _ _ E H).
      * intros H. injection H as H1 H2. subst c1.
        rewrite Ascii.eqb_refl in E. discriminate.
Qed.

Section WithExternals.
Variables FieldSpec SynonymMap : Type.
Variable X : Externals FieldSpec SynonymMap.

Lemma same_query_refl (q : QueryExpander FieldSpec SynonymMap) : same_query q q.
Proof. repeat split. Qed.

Lemma same_query_trans (q1 q2 q3 : QueryExpander FieldSpec SynonymMap) :
  same_query q1 q2 -> same_query q2 q3 -> same_query q1 q3.
Proof.
  unfold same_query. intros (A1 & A2 & A3 & A4) (B1 & B2 & B3 & B4).
  repeat split; congruence.
Qed.

Lemma emit_same_query (q : QueryExpander FieldSpec SynonymMap) e :
  same_query q (emit q e).
Proof. repeat split. Qed.

Lemma SynonymExpander_same_query (token : RSToken)
    (q : QueryExpander FieldSpec SynonymMap) :
  same_query q (snd (SynonymExpander_Expand X token q)).
Proof.
  unfold SynonymExpander_Expand.
  destruct (smap (spec q)) as [m|]; [|apply same_query_refl].
  destruct (GetIdsBySynonym X m (str token) (tok_len token)) as [ids|];
    [|apply same_query_refl].
  cbn [snd].
  assert (H : forall q0, same_query q q0 ->
            same_query q (fold_left (fun q' id =>
                        let '(buff, n) := IdToStr X id in
                        ExpandToken buff n 0 q') ids q0)).
  { induction ids as [|id ids IH]; intros q0 H0; [exact H0|].
    cbn [fold_left]. apply IH. destruct (IdToStr X id) as [buff n].
    eapply same_query_trans; [exact H0 | apply emit_same_query]. }
  apply H, same_query_refl.
Qed.

(** The synonym expander leaves the language and the private data as
    they are. *)
Lemma SynonymExpander_same_handle (token : RSToken)
    (q : QueryExpander FieldSpec SynonymMap) :
  privdata (snd (SynonymExpander_Expand X token q)) = privdata q
  /\ language (snd (SynonymExpander_Expand X token q)) = language q.
Proof.
  unfold SynonymExpander_Expand.
  destruct (smap (spec q)) as [m|]; [|split; reflexivity].
  destruct (GetIdsBySynonym X m (str token) (tok_len token)) as [ids|];
    [|split; reflexivity].
  cbn [snd]. revert q.
  induction ids as [|id ids IH]; intros q; [split; reflexivity|].
  cbn [fold_left]. destruct (IdToStr X id) as [buff n].
  destruct (IH (ExpandToken buff n 0 q)) as [Hp Hl].
  rewrite Hp, Hl. split; reflexivity.
Qed.

Lemma with_privdata_same_query (q : QueryExpander FieldSpec SynonymMap) d :
  same_query q (with_privdata q d).
Proof. repeat split. Qed.

Lemma expandCn_same_query dd token (q : QueryExpander FieldSpec SynonymMap) :
  same_query q (expandCn X dd token q).
Proof. repeat split. Qed.

Lemma stem_and_emit_same_query sb token (q : QueryExpander FieldSpec SynonymMap) :
  same_query q (stem_and_emit X sb token q).
Proof.
  unfold stem_and_emit.
  destruct (sb _) as [stemmed|]; [|apply same_query_refl].
  match goal with |- context [if ?c then _ else _] => destruct c end;
    repeat split.
Qed.

Lemma StemmerExpander_same_query token (q : QueryExpander FieldSpec SynonymMap) :
  ~ (privdata q = None /\ language q = RS_LANG_CHINESE) ->
  same_query q (snd (StemmerExpander_Expand X token q)).
Proof.
  intros Hq. unfold StemmerExpander_Expand.
  destruct (privdata q) as [dd|].
  - destruct (isCn dd); [apply expandCn_same_query|].
    destruct (latin dd); [apply stem_and_emit_same_query | apply same_query_refl].
  - destruct (language q); [exfalso; apply Hq; split; reflexivity|].
    cbn [isCn latin].
    destruct (sb_stemmer_new X _); cbn [snd].
    + eapply same_query_trans;
        [apply with_privdata_same_query | apply stem_and_emit_same_query].
    + apply with_privdata_same_query.
Qed.

(** *** Field masks *)

Lemma field_bit_in_range (ii : nat) :
  Z.of_nat ii < t_fieldMask_bits X -> field_bit X ii = 2 ^ Z.of_nat ii.
Proof.
  intros H. unfold field_bit. apply Z.ltb_lt in H. rewrite H.
  apply Z.shiftl_1_l.
Qed.

Lemma land_pow2_testbit (fm : Z) (ii : nat) :
  Z.land fm (2 ^ Z.of_nat ii) <> 0 -> Z.testbit fm (Z.of_nat ii) = true.
Proof.
  intros H. destruct (Z.testbit fm (Z.of_nat ii)) eqn:E; [reflexivity|].
  exfalso. apply H. apply Z.bits_inj'. intros n Hn.
  rewrite Z.land_spec, Z.bits_0, Z.pow2_bits_eqb by lia.
  destruct (Z.eqb_spec (Z.of_nat ii) n) as [<- | _].
  - rewrite E. reflexivity.
  - apply andb_false_r.
Qed.

Lemma field_bit_requested (fm : Z) (ii : nat) :
  Z.of_nat ii < t_fieldMask_bits X ->
  (Z.land fm (field_bit X ii) =? 0) = false -> requested X fm ii.
Proof.
  intros Hlt H. apply Z.eqb_neq in H. right.
  rewrite (field_bit_in_range ii Hlt) in H.
  apply land_pow2_testbit. exact H.
Qed.

Lemma in_combine_seq {A} (l : list A) (k i : nat) (x : A) :
  In (i, x) (combine (seq k (List.length l)) l) ->
  (k <= i)%nat /\ nth_error l (i - k) = Some x.
Proof.
  revert k. induction l as [|a l IH]; intros k H; [destruct H|].
  cbn [List.length seq combine] in H. destruct H as [H | H].
  - injection H as <- <-. split; [lia|]. rewrite Nat.sub_diag. reflexivity.
  - destruct (IH _ H) as [Hle Hn]. split; [lia|].
    replace (i - k)%nat with (S (i - S k)) by lia. exact Hn.
Qed.

(** When no requested field is phonetic, the forced-mode check fails. *)
Lemma no_phonetic_field_invalid (sp : IndexSpec FieldSpec SynonymMap) (fm : Z) :
  fields_fit X sp ->
  (forall ii fs, nth_error (fields sp) ii = Some fs ->
                 requested X fm ii -> IsPhonetics X fs = false) ->
  (Z.land (spec_flags sp) (Index_HasPhonetic X) <> 0 ->
   exists fs, In fs (fields sp) /\ IsPhonetics X fs = true) ->
  phonetic_fields_valid X sp fm = false.
Proof.
  intros Hfit Hnone Hflag. unfold phonetic_fields_valid.
  destruct (Z.eqb_spec fm (RS_FIELDMASK_ALL X)) as [Hall | Hsome].
  - apply negb_false_iff, Z.eqb_eq.
    destruct (Z.eq_dec (Z.land (spec_flags sp) (Index_HasPhonetic X)) 0)
      as [E | E]; [exact E|].
    destruct (Hflag E) as (fs & Hin & Hph).
    apply In_nth_error in Hin. destruct Hin as [ii Hii].
    rewrite (Hnone ii fs Hii) in Hph; [discriminate | left; exact Hall].
  - assert (H : forall l,
              (forall ii fs, In (ii, fs) l ->
                 (Z.land fm (field_bit X ii) =? 0) = true
                 \/ IsPhonetics X fs = false) ->
              fold_left
                (fun isValid '(ii, fs) =>
                   if Z.land fm (field_bit X ii) =? 0 then isValid
                   else if IsPhonetics X fs then true else isValid)
                l false = false).
    { induction l as [|[ii fs] l IH]; intros Hl; [reflexivity|].
      cbn [fold_left].
      destruct (Hl ii fs (or_introl eq_refl)) as [E | E]; rewrite E.
      - apply IH. intros; apply Hl; right; assumption.
      - destruct (Z.land fm (field_bit X ii) =? 0);
          apply IH; intros; apply Hl; right; assumption. }
    apply H. intros ii fs Hin.
    destruct (Z.land fm (field_bit X ii) =? 0) eqn:E; [left; reflexivity|].
    right. destruct (in_combine_seq _ _ _ _ Hin) as [_ Hn].
    rewrite Nat.sub_0_r in Hn.
    apply (Hnone ii fs Hn). apply field_bit_requested; [|exact E].
    assert (Hlen : (ii < List.length (fields sp))%nat)
      by (apply nth_error_Some; rewrite Hn; discriminate).
    unfold fields_fit in Hfit. lia.
Qed.

End WithExternals.

End ExpanderFacts.

Section ExpanderClaims.
Import Expander ExpanderFacts.
Local Open Scope Z_scope.

(** C8: in the default expander, with the phonetic option forced on or
    forced off, the token's field mask is checked against the fields'
    phonetic capability, and when no requested field supports phonetics
    (the index-wide flag standing for the fields under the all-fields mask)
    the expansion returns an error, records "field does not support
    phonetics" and runs neither the phonetic nor the stemmer expander; in
    the default state, when no phonetic field matches the mask, the
    phonetic expander is skipped, the stemmer runs and no error is set.
    The forced modes are taken on an index whose field count fits the width
    of the field mask, so that every shift of the check is defined; the
    default state is taken outside the one state in which the stemmer calls
    through a null pointer (no private data yet, Chinese query). *)
Theorem phonetic_gating :
  forall (FieldSpec SynonymMap : Type) (X : Externals FieldSpec SynonymMap)
         (token : RSToken) (q : QueryExpander FieldSpec SynonymMap),
    let r := DefaultExpander_Expand X token q in
    let after_synonyms := snd (SynonymExpander_Expand X token q) in
    (opts_phonetic q = PHONETIC_ENABLED \/ opts_phonetic q = PHONETIC_DESABLED ->
     fields_fit X (spec q) ->
     (forall ii fs, nth_error (fields (spec q)) ii = Some fs ->
                    requested X (opts_fieldMask q) ii -> IsPhonetics X fs = false) ->
     (Z.land (spec_flags (spec q)) (Index_HasPhonetic X) <> 0 ->
      exists fs, In fs (fields (spec q)) /\ IsPhonetics X fs = true) ->
     fst r = REDISMODULE_ERR
     /\ qstatus (snd r) = Some (QUERY_EINVAL, "field does not support phonetics"%string)
     /\ expansions (snd r) = expansions after_synonyms)
    /\ (opts_phonetic q = PHONETIC_DEFAULT ->
        ~ null_chinese q ->
        CheckPhoneticEnabled X (spec q) (opts_fieldMask q) = false ->
        r = (REDISMODULE_OK, snd (StemmerExpander_Expand X token after_synonyms))
        /\ qstatus (snd r) = qstatus q).
Proof.
  intros FieldSpec SynonymMap X token q r q1. subst r.
  destruct (SynonymExpander_same_query _ _ X token q) as (Hspec & Hph & Hfm & Hst).
  fold q1 in Hspec, Hph, Hfm, Hst.
  unfold DefaultExpander_Expand. fold q1.
  split.
  - intros Hmode Hfit Hnone Hflag.
    assert (Hinv : phonetic_fields_valid X (spec q1) (opts_fieldMask q1) = false).
    { rewrite Hspec, Hfm. apply no_phonetic_field_invalid; assumption. }
    destruct Hmode as [Hm | Hm]; rewrite Hm, Hinv; repeat split.
  - intros Hmode Hq Hcheck. rewrite Hmode, Hspec, Hfm, Hcheck.
    split; [reflexivity|]. cbn [snd].
    destruct (SynonymExpander_same_handle _ _ X token q) as [Hpd Hlang].
    fold q1 in Hpd, Hlang.
    assert (Hq1 : ~ (privdata q1 = None /\ language q1 = RS_LANG_CHINESE)).
    { rewrite Hpd, Hlang. exact Hq. }
    destruct (StemmerExpander_same_query _ _ X token q1 Hq1) as (_ & _ & _ & Hs).
    congruence.
Qed.

Lemma phonetic_gating_witness :
  let tok := sample_token "running" in
  fst (DefaultExpander_Expand sample_externals tok (sample_query PHONETIC_ENABLED 1))
  = REDISMODULE_ERR
  /\ fst (DefaultExpander_Expand sample_externals tok (sample_query PHONETIC_DESABLED 1))
     = REDISMODULE_ERR
  /\ DefaultExpander_Expand sample_externals tok (sample_query PHONETIC_DEFAULT 1)
     = (REDISMODULE_OK,
        snd (StemmerExpander_Expand sample_externals tok
               (sample_query PHONETIC_DEFAULT 1))).
Proof.
  intros tok.
  assert (Hnone : forall mode ii fs,
            nth_error (fields (spec (sample_query mode 1))) ii = Some fs ->
            requested sample_externals (opts_fieldMask (sample_query mode 1)) ii ->
            IsPhonetics sample_externals fs = false).
  { intros mode ii fs Hn [Hall | Hbit]; [discriminate Hall|].
    destruct ii as [|[|ii]]; cbn in Hn.
    - injection Hn as <-. reflexivity.
    - cbn in Hbit. discriminate.
    - destruct ii; discriminate. }
  assert (Hflag : forall mode,
            Z.land (spec_flags (spec (sample_query mode 1)))
                   (Index_HasPhonetic sample_externals) <> 0 ->
            exists fs, In fs (fields (spec (sample_query mode 1)))
                       /\ IsPhonetics sample_externals fs = true).
  { intros mode _. exists true. split; [right; left|]; reflexivity. }
  assert (Hfit : forall mode,
            fields_fit sample_externals (spec (sample_query mode 1))).
  { intros mode. unfold fields_fit. cbn. lia. }
  assert (Hq : ~ null_chinese (sample_query PHONETIC_DEFAULT 1))
    by (intros [_ H]; discriminate H).
  split; [|split].
  - apply (phonetic_gating bool unit sample_externals tok
             (sample_query PHONETIC_ENABLED 1));
      [left; reflexivity | apply Hfit | apply Hnone | apply Hflag].
  - apply (phonetic_gating bool unit sample_externals tok
             (sample_query PHONETIC_DESABLED 1));
      [right; reflexivity | apply Hfit | apply Hnone | apply Hflag].
  - apply (phonetic_gating bool unit sample_externals tok
             (sample_query PHONETIC_DEFAULT 1)); [reflexivity | exact Hq | reflexivity].
Defined.

(** C3, as stated: when the stem differs from the token, the original,
    unstemmed token is emitted as a second alternative.  For "running",
    stemmed to "run", the expander emits "+run" and then "run": the
    original text is not among the expansions, under any length or flags. *)
Lemma stemmer_does_not_emit_the_original :
  ~ (forall (X : Externals bool unit) (token : RSToken)
            (q : QueryExpander bool unit) (sb : sb_stemmer) (stemmed : string),
       privdata q = Some {| isCn := false; latin := Some sb;
                            tokenizer := false; tokens := [] |} ->
       expansions q = [] ->
       tok_len token = String.length (str token) ->
       sb (str token) = Some stemmed ->
       stemmed <> str token ->
       exists n flags,
         In (ExpToken (str token) n flags)
            (expansions (snd (StemmerExpander_Expand X token q)))).
Proof.
  intros H.
  set (sb := fun w : string =>
               if String.eqb w "running" then Some "run"%string else Some w).
  specialize (H sample_externals (sample_token "running")
    {| language := RS_LANG_OTHER "english";
       privdata := Some {| isCn := false; latin := Some sb;
                           tokenizer := false; tokens := [] |};
       spec := {| spec_flags := 0; fields := []; smap := None |};
       opts_phonetic := PHONETIC_DEFAULT; opts_fieldMask := 0;
       qstatus := None; expansions := [] |}
    sb "run"%string eq_refl eq_refl eq_refl eq_refl).
  assert (Hne : "run"%string <> str (sample_token "running")) by discriminate.
  destruct (H Hne) as (n & flags & Hin).
  vm_compute in Hin.
  destruct Hin as [Hin | [Hin | []]]; discriminate Hin.
Qed.

(** C3, amended: when a Snowball stemmer is available for the query (cached
    in the private data, or created on first use for a non-Chinese
    language) and stemming the token succeeds, the stemmer expander emits
    the stem prefixed with the one-byte stem marker; when the stem differs
    from the token text it additionally emits the bare stem, without the
    marker, as a second alternative, and when the stem equals the token text
    it emits the prefixed stem only. *)
Theorem stemmer_expansion :
  forall (FieldSpec SynonymMap : Type) (X : Externals FieldSpec SynonymMap)
         (token : RSToken) (q : QueryExpander FieldSpec SynonymMap)
         (sb : sb_stemmer) (stemmed : string),
    (exists dd, privdata q = Some dd /\ isCn dd = false /\ latin dd = Some sb)
    \/ (exists name, privdata q = None /\ language q = RS_LANG_OTHER name
                     /\ sb_stemmer_new X name = Some sb) ->
    tok_len token = String.length (str token) ->
    nul_free (str token) = true ->
    nul_free stemmed = true ->
    sb (str token) = Some stemmed ->
    let r := StemmerExpander_Expand X token q in
    let prefixed :=
      ExpToken (String (STEM_PREFIX X) stemmed) (String.length stemmed + 1) 0 in
    fst r = REDISMODULE_OK
    /\ (stemmed <> str token ->
        expansions (snd r)
        = expansions q ++ [prefixed; ExpToken stemmed (String.length stemmed) 0])
    /\ (stemmed = str token -> expansions (snd r) = expansions q ++ [prefixed]).
Proof.
  intros FieldSpec SynonymMap X token q sb stemmed Hav Hlen Hnul Hnuls Hstem r prefixed.
  assert (Hemit : forall q0 : QueryExpander FieldSpec SynonymMap,
    (stemmed <> str token ->
     expansions (stem_and_emit X sb token q0)
     = expansions q0 ++ [prefixed; ExpToken stemmed (String.length stemmed) 0])
    /\ (stemmed = str token ->
        expansions (stem_and_emit X sb token q0) = expansions q0 ++ [prefixed])).
  { intros q0. unfold stem_and_emit.
    rewrite Hlen, substring_all, Hstem.
    destruct (Nat.eqb_spec (String.length stemmed) (String.length (str token)))
      as [Hl | Hl]; cbn [negb orb].
    - pose proof (strncmp_zero_iff stemmed (str token) Hl Hnul) as Hcmp.
      destruct (Z.eqb_spec (strncmp stemmed (str token) (String.length (str token))) 0)
        as [Hz | Hz]; cbn [negb].
      + apply Hcmp in Hz. split; [congruence|]. intros _. reflexivity.
      + split; [|intros E; apply Hcmp in E; congruence].
        intros _. rewrite strndup_all by assumption.
        cbn [ExpandToken emit expansions]. rewrite <- app_assoc. reflexivity.
    - split; [|intros E; rewrite E in Hl; congruence].
      intros _. rewrite strndup_all by assumption.
      cbn [ExpandToken emit expansions]. rewrite <- app_assoc. reflexivity. }
  subst r. unfold StemmerExpander_Expand.
  destruct Hav as [(dd & Hp & Hcn & Hlat) | (name & Hp & Hlang & Hnew)].
  - rewrite Hp, Hcn, Hlat. cbn [fst snd]. split; [reflexivity|]. apply Hemit.
  - rewrite Hp, Hlang. cbn [RSLanguage_ToString isCn latin]. rewrite Hnew.
    cbn [fst snd]. split; [reflexivity|]. apply (Hemit (with_privdata q _)).
Qed.

Lemma stemmer_expansion_witness :
  expansions (snd (StemmerExpander_Expand sample_externals (sample_token "running")
                     (sample_query PHONETIC_DEFAULT 1)))
  = [ExpToken "+run" 4 0; ExpToken "run" 3 0]
  /\ expansions (snd (StemmerExpander_Expand sample_externals (sample_token "sun")
                        (sample_query PHONETIC_DEFAULT 1)))
     = [ExpToken "+sun" 4 0].
Proof.
  set (sb := fun w : string =>
               if String.eqb w "running" then Some "run"%string else Some w).
  assert (Hav : forall mode mask,
    (exists dd, privdata (sample_query mode mask) = Some dd
                /\ isCn dd = false /\ latin dd = Some sb)
    \/ (exists name, privdata (sample_query mode mask) = None
                     /\ language (sample_query mode mask) = RS_LANG_OTHER name
                     /\ sb_stemmer_new sample_externals name = Some sb)).
  { intros. right. exists "english"%string. repeat split. }
  split.
  - destruct (stemmer_expansion bool unit sample_externals (sample_token "running")
                (sample_query PHONETIC_DEFAULT 1) sb "run"%string
                (Hav _ _) eq_refl eq_refl eq_refl eq_refl) as (_ & H & _).
    apply H. discriminate.
  - destruct (stemmer_expansion bool unit sample_externals (sample_token "sun")
                (sample_query PHONETIC_DEFAULT 1) sb "sun"%string
                (Hav _ _) eq_refl eq_refl eq_refl eq_refl) as (_ & _ & H).
    apply H. reflexivity.
Defined.

End ExpanderClaims.

(* ===================================================================== *)
(** * Further properties of the scorers *)

Module TreeFacts.
Import Num WriterFacts ScoreFacts.
Local Open Scope float_scope.

Lemma log_bind {A B} (m : W A) (k : A -> W B) :
  snd (bind m k) = snd m ++ snd (k (fst m)).
Proof. reflexivity. Qed.

Lemma log_foldM_nil {A B} (f : B -> A -> W B) (l : list A) (b : B) :
  (forall acc a, In a l -> snd (f acc a) = []) -> snd (foldM f l b) = [].
Proof.
  revert b. induction l as [|a l IH]; intros b H; [reflexivity|].
  cbn [foldM]. rewrite log_bind, (H b a) by (left; reflexivity).
  apply IH. intros acc x Hx. apply H. right. exact Hx.
Qed.

Lemma fold_left_over_map {A B C} (f : C -> B -> C) (g : A -> B) (l : list A) (c : C) :
  fold_left f (map g l) c = fold_left (fun acc a => f acc (g a)) l c.
Proof.
  revert c. induction l as [|a l IH]; intros c; [reflexivity|]. cbn. apply IH.
Qed.

Lemma ltb_neg_infinity (x : float) : (x <? neg_infinity) = false.
Proof.
  rewrite FloatAxioms.ltb_spec.
  change (Prim2SF neg_infinity) with (S754_infinity true).
  destruct (Prim2SF x) as [s | s | | s m e]; try reflexivity; destruct s; reflexivity.
Qed.

Lemma TFIDF_node_silent (r : IndexResult) : snd (TFIDF.TFIDFScorer_node r PNull) = [].
Proof.
  induction r as [b t | b | b cs IH | b cs IH | b cs IH]
    using IndexResult_tree_ind; try reflexivity;
    cbn [TFIDF.TFIDFScorer_node]; unfold TFIDF.AggregateResult_TFIDFScorer;
    cbn [is_null]; rewrite log_bind, log_foldM_nil; try reflexivity;
    intros acc c Hc; rewrite log_bind; rewrite Forall_forall in IH;
    rewrite (IH c Hc); reflexivity.
Qed.

Lemma BM25_node_silent (r : IndexResult) (args : ScorerArgs) :
  snd (BM25.BM25Scorer_node r args PNull) = [].
Proof.
  induction r as [b t | b | b cs IH | b cs IH | b cs IH]
    using IndexResult_tree_ind; try reflexivity.
  - cbn [BM25.BM25Scorer_node]. unfold BM25.IndexResult_BM25Scorer.
    destruct (truthy (of_Z (freq b))); reflexivity.
  - cbn [BM25.BM25Scorer_node]. unfold BM25.AggregateResult_BM25Scorer.
    cbn [is_null]. rewrite log_bind, log_foldM_nil; try reflexivity.
    intros acc c Hc. rewrite log_bind. rewrite Forall_forall in IH.
    rewrite (IH c Hc). reflexivity.
  - cbn [BM25.BM25Scorer_node]. unfold BM25.AggregateResult_BM25Scorer.
    cbn [is_null]. rewrite log_bind, log_foldM_nil; try reflexivity.
    intros acc c Hc. rewrite log_bind. rewrite Forall_forall in IH.
    rewrite (IH c Hc). reflexivity.
  - cbn [BM25.BM25Scorer_node]. unfold BM25.AggregateResult_BM25Scorer.
    cbn [is_null]. rewrite log_bind, log_foldM_nil; try reflexivity.
    intros acc c Hc. rewrite log_bind. rewrite Forall_forall in IH.
    rewrite (IH c Hc). reflexivity.
Qed.

Lemma log_MAX_call (score : float) (c : W float) :
  snd c = [] -> snd (DisMax.MAX_call score c) = [].
Proof.
  intros H. unfold DisMax.MAX_call. rewrite log_bind, H.
  destruct (fst c <? score); [reflexivity | exact H].
Qed.

Lemma DisMax_node_silent (r : IndexResult) : snd (DisMax.DisMaxScorer_node r PNull) = [].
Proof.
  induction r as [b t | b | b cs IH | b cs IH | b cs IH]
    using IndexResult_tree_ind; try reflexivity;
    cbn [DisMax.DisMaxScorer_node];
    unfold DisMax.IntersectResult_DisMaxScorer, DisMax.UnionResult_DisMaxScorer;
    cbn [is_null]; rewrite log_bind, log_foldM_nil; try reflexivity;
    intros acc c Hc; rewrite Forall_forall in IH.
  - rewrite log_bind, (IH c Hc). reflexivity.
  - apply log_MAX_call, IH, Hc.
Qed.

(** A loop over rebuilt children, when each step does on the rebuilt
    child what another step does on the child. *)
Lemma foldM_over_map {A B} (f f' : B -> A -> W B) (h : A -> A) (l : list A) (b : B) :
  Forall (fun a => forall acc, f acc (h a) = f' acc a) l ->
  foldM f (map h l) b = foldM f' l b.
Proof.
  intros H. revert b. induction H as [|a l Ha Hl IH]; intros b; [reflexivity|].
  change (bind (f b (h a)) (foldM f (map h l)) = bind (f' b a) (foldM f' l)).
  rewrite Ha. unfold bind. rewrite IH. reflexivity.
Qed.

(** A composite's value, with the children's values read through any
    function that agrees with the virtual call. *)
Lemma retouch_children (op : float -> float -> float)
    (F G : IndexResult -> float) (h : IndexResult -> IndexResult)
    (cs : list IndexResult) (x : float) :
  Forall (fun c => F (h c) = G c) cs ->
  fold_left (fun acc c => op acc (F c)) (map h cs) x
  = fold_left (fun acc c => op acc (G c)) cs x.
Proof.
  intros H. rewrite fold_left_over_map.
  apply fold_left_ext_in. intros acc c Hc. f_equal.
  rewrite Forall_forall in H. exact (H c Hc).
Qed.

End TreeFacts.

Section MoreScoring.
Import Num WriterFacts NumFacts ScoreFacts TreeFacts.
Local Open Scope float_scope.

(** X1: with no explain handle in the scorer arguments, none of the six
    registered scorers performs any operation on an explain node, whatever
    the tree, document, threshold and proximity function. *)
Theorem no_explain_no_log :
  forall (MinOffsetDelta : IndexResult -> Z) (sc : Scorer) (args : ScorerArgs)
         (r : IndexResult) (dmd : RSDocumentMetadata) (minScore : float),
    snd (run_scorer MinOffsetDelta sc (with_explain args PNull) r dmd minScore) = [].
Proof.
  intros M sc args r dmd minScore.
  assert (HT : forall mode,
    snd (TFIDF.IndexResult_TFIDFScorer_norm M r (with_explain args PNull)
           dmd minScore mode) = []).
  { intros mode. unfold TFIDF.IndexResult_TFIDFScorer_norm.
    destruct (score dmd =? 0); [reflexivity|].
    cbn [with_explain explain]. rewrite !log_bind, TFIDF_node_silent.
    cbn [app]. unfold CreateNewExplainParent. cbn [explain is_null ret fst snd app].
    match goal with
    | |- context [if (?a <? ?b) then _ else _] => destruct (a <? b)
    | |- context [if ?c then _ else _] => destruct c
    end;
      reflexivity. }
  destruct sc; cbn [run_scorer].
  - apply HT.
  - apply HT.
  - unfold BM25.BM25Scorer. cbn [with_explain explain].
    rewrite !log_bind, BM25_node_silent.
    cbn [app]. unfold CreateNewExplainParent. cbn [explain is_null ret fst snd app].
    match goal with
    | |- context [if (?a <? ?b) then _ else _] => destruct (a <? b)
    | |- context [if ?c then _ else _] => destruct c
    end;
      reflexivity.
  - unfold DisMax.DisMaxScorer. cbn [with_explain explain]. apply DisMax_node_silent.
  - reflexivity.
  - unfold Hamming.HammingDistanceScorer. cbn [with_explain explain].
    match goal with
    | |- context [if (?a <? ?b) then _ else _] => destruct (a <? b)
    | |- context [if ?c then _ else _] => destruct c
    end;
      reflexivity.
Qed.

(** X2: the minimum-score threshold can only replace a score by 0: for
    every registered scorer the value returned under a threshold is either
    0 or exactly the value returned when nothing is cut off (threshold
    minus infinity); the DisMax, document-score and Hamming scorers do not
    read the threshold at all. *)
Theorem threshold_only_zeroes :
  forall (MinOffsetDelta : IndexResult -> Z) (sc : Scorer) (args : ScorerArgs)
         (r : IndexResult) (dmd : RSDocumentMetadata) (minScore : float),
    (value (run_scorer MinOffsetDelta sc args r dmd minScore) = 0
     \/ value (run_scorer MinOffsetDelta sc args r dmd minScore)
        = value (run_scorer MinOffsetDelta sc args r dmd neg_infinity))
    /\ (sc = SC_DISMAX \/ sc = SC_DOCSCORE \/ sc = SC_HAMMING ->
        forall minScore',
          run_scorer MinOffsetDelta sc args r dmd minScore
          = run_scorer MinOffsetDelta sc args r dmd minScore').
Proof.
  intros M sc args r dmd minScore.
  split; [|intros [-> | [-> | ->]] m'; reflexivity].
  assert (HT : forall mode,
    value (TFIDF.IndexResult_TFIDFScorer_norm M r args dmd minScore mode) = 0
    \/ value (TFIDF.IndexResult_TFIDFScorer_norm M r args dmd minScore mode)
       = value (TFIDF.IndexResult_TFIDFScorer_norm M r args dmd neg_infinity mode)).
  { intros mode. unfold TFIDF.IndexResult_TFIDFScorer_norm.
    destruct (score dmd =? 0); [left; reflexivity|].
    rewrite !value_bind. rewrite ltb_neg_infinity.
    match goal with
    | |- context [if (?a <? ?b) then _ else _] => destruct (a <? b)
    | |- context [if ?c then _ else _] => destruct c
    end;
      [left | right]; reflexivity. }
  destruct sc; cbn [run_scorer]; try (right; reflexivity).
  - apply HT.
  - apply HT.
  - unfold BM25.BM25Scorer. rewrite !value_bind. rewrite ltb_neg_infinity.
    match goal with
    | |- context [if (?a <? ?b) then _ else _] => destruct (a <? b)
    | |- context [if ?c then _ else _] => destruct c
    end;
      [left | right]; reflexivity.
Qed.

(** X3: the per-node scorers never read the offsets: changing the offsets
    of any nodes of a tree, weights and frequencies kept, changes no
    node's TF-IDF, BM25 or DisMax contribution. *)
Theorem contribution_ignores_offsets :
  forall (f : ResultBase -> ResultBase),
    (forall b, weight (f b) = weight b /\ freq (f b) = freq b) ->
    forall (alg : Algorithm) (args : ScorerArgs) (e : eptr) (r : IndexResult),
      contribution alg args e (retouch f f (fun t => t) r)
      = contribution alg args e r.
Proof.
  intros f Hf alg args e r. revert e.
  assert (Hw : forall b, weight (f b) = weight b) by (intros b; apply Hf).
  assert (Hq : forall b, freq (f b) = freq b) by (intros b; apply Hf).
  destruct alg; cbn [contribution];
    induction r as [b t | b | b cs IH | b cs IH | b cs IH]
      using IndexResult_tree_ind; intros e; cbn [retouch].
  - cbn. rewrite Hw, Hq. reflexivity.
  - cbn. rewrite Hw, Hq. reflexivity.
  - cbn [TFIDF.TFIDFScorer_node]. rewrite !TFIDF_aggregate_value, Hw. f_equal.
    apply (retouch_children PrimFloat.add
             (fun c => value (TFIDF.TFIDFScorer_node c (child_handle e)))
             (fun c => value (TFIDF.TFIDFScorer_node c (child_handle e)))).
    eapply Forall_impl; [|exact IH]. intros c Hc. apply Hc.
  - cbn [TFIDF.TFIDFScorer_node]. rewrite !TFIDF_aggregate_value, Hw. f_equal.
    apply (retouch_children PrimFloat.add
             (fun c => value (TFIDF.TFIDFScorer_node c (child_handle e)))
             (fun c => value (TFIDF.TFIDFScorer_node c (child_handle e)))).
    eapply Forall_impl; [|exact IH]. intros c Hc. apply Hc.
  - cbn [TFIDF.TFIDFScorer_node]. rewrite !TFIDF_aggregate_value, Hw. f_equal.
    apply (retouch_children PrimFloat.add
             (fun c => value (TFIDF.TFIDFScorer_node c (child_handle e)))
             (fun c => value (TFIDF.TFIDFScorer_node c (child_handle e)))).
    eapply Forall_impl; [|exact IH]. intros c Hc. apply Hc.
  - cbn. rewrite Hq. reflexivity.
  - cbn [BM25.BM25Scorer_node]. unfold BM25.IndexResult_BM25Scorer.
    rewrite Hw, Hq. reflexivity.
  - cbn [BM25.BM25Scorer_node]. rewrite !BM25_aggregate_value, Hw. f_equal.
    apply (retouch_children PrimFloat.add
             (fun c => value (BM25.BM25Scorer_node c args _))
             (fun c => value (BM25.BM25Scorer_node c args _))).
    eapply Forall_impl; [|exact IH]. intros c Hc. apply Hc.
  - cbn [BM25.BM25Scorer_node]. rewrite !BM25_aggregate_value, Hw. f_equal.
    apply (retouch_children PrimFloat.add
             (fun c => value (BM25.BM25Scorer_node c args _))
             (fun c => value (BM25.BM25Scorer_node c args _))).
    eapply Forall_impl; [|exact IH]. intros c Hc. apply Hc.
  - cbn [BM25.BM25Scorer_node]. rewrite !BM25_aggregate_value, Hw. f_equal.
    apply (retouch_children PrimFloat.add
             (fun c => value (BM25.BM25Scorer_node c args _))
             (fun c => value (BM25.BM25Scorer_node c args _))).
    eapply Forall_impl; [|exact IH]. intros c Hc. apply Hc.
  - cbn. rewrite Hw, Hq. reflexivity.
  - cbn. rewrite Hw, Hq. reflexivity.
  - cbn. rewrite Hw, Hq. reflexivity.
  - cbn [DisMax.DisMaxScorer_node]. rewrite !DisMax_intersect_value, Hw. f_equal.
    apply (retouch_children PrimFloat.add
             (fun c => value (DisMax.DisMaxScorer_node c (child_handle e)))
             (fun c => value (DisMax.DisMaxScorer_node c (child_handle e)))).
    eapply Forall_impl; [|exact IH]. intros c Hc. apply Hc.
  - cbn [DisMax.DisMaxScorer_node]. rewrite !DisMax_union_value, Hw. f_equal.
    apply (retouch_children MAX
             (fun c => value (DisMax.DisMaxScorer_node c (child_handle e)))
             (fun c => value (DisMax.DisMaxScorer_node c (child_handle e)))).
    eapply Forall_impl; [|exact IH]. intros c Hc. apply Hc.
Qed.

Lemma contribution_ignores_offsets_witness :
  let args := {| indexStats := {| avgDocLen := 10 |}; args_payload := [];
                 explain := PNull |} in
  let r := IntersectResult {| weight := 2; freq := 1; offsets := [3%Z] |}
             [TermResult {| weight := 1; freq := 4; offsets := [1%Z; 5%Z] |}
                         (Some {| idf := 3 |});
              VirtualResult {| weight := 1; freq := 2; offsets := [2%Z] |}] in
  let forget b := {| weight := weight b; freq := freq b; offsets := [] |} in
  contribution ALG_TFIDF args PNull (retouch forget forget (fun t => t) r) = 28
  /\ contribution ALG_DISMAX args PNull (retouch forget forget (fun t => t) r) = 12.
Proof.
  intros args r forget.
  assert (Hf : forall b, weight (forget b) = weight b /\ freq (forget b) = freq b)
    by (intros b; split; reflexivity).
  split.
  - rewrite (contribution_ignores_offsets forget Hf ALG_TFIDF args PNull r).
    reflexivity.
  - rewrite (contribution_ignores_offsets forget Hf ALG_DISMAX args PNull r).
    reflexivity.
Defined.

End MoreScoring.

Section MoreScoringIndependence.
Import Num WriterFacts NumFacts ScoreFacts TreeFacts.
Local Open Scope float_scope.

(** X4: BM25 ignores the weight of Term leaves: giving the Term leaves of
    a tree any other weights (frequencies kept) changes no node's BM25
    contribution. *)
Theorem BM25_ignores_term_weights :
  forall (fT : ResultBase -> ResultBase),
    (forall b, freq (fT b) = freq b) ->
    forall (args : ScorerArgs) (e : eptr) (r : IndexResult),
      contribution ALG_BM25 args e (retouch fT (fun b => b) (fun t => t) r)
      = contribution ALG_BM25 args e r.
Proof.
  intros fT Hq args e r. revert e. cbn [contribution].
  induction r as [b t | b | b cs IH | b cs IH | b cs IH]
    using IndexResult_tree_ind; intros e; cbn [retouch].
  - cbn. rewrite Hq. reflexivity.
  - reflexivity.
  - cbn [BM25.BM25Scorer_node]. rewrite !BM25_aggregate_value. f_equal.
    apply (retouch_children PrimFloat.add
             (fun c => value (BM25.BM25Scorer_node c args _))
             (fun c => value (BM25.BM25Scorer_node c args _))).
    eapply Forall_impl; [|exact IH]. intros c Hc. apply Hc.
  - cbn [BM25.BM25Scorer_node]. rewrite !BM25_aggregate_value. f_equal.
    apply (retouch_children PrimFloat.add
             (fun c => value (BM25.BM25Scorer_node c args _))
             (fun c => value (BM25.BM25Scorer_node c args _))).
    eapply Forall_impl; [|exact IH]. intros c Hc. apply Hc.
  - cbn [BM25.BM25Scorer_node]. rewrite !BM25_aggregate_value. f_equal.
    apply (retouch_children PrimFloat.add
             (fun c => value (BM25.BM25Scorer_node c args _))
             (fun c => value (BM25.BM25Scorer_node c args _))).
    eapply Forall_impl; [|exact IH]. intros c Hc. apply Hc.
Qed.

Lemma BM25_ignores_term_weights_witness :
  let args := {| indexStats := {| avgDocLen := 10 |}; args_payload := [];
                 explain := PNull |} in
  let r := UnionResult {| weight := 2; freq := 1; offsets := [] |}
             [TermResult {| weight := 1; freq := 4; offsets := [] |}
                         (Some {| idf := 3 |})] in
  let boost b := {| weight := 100; freq := freq b; offsets := offsets b |} in
  contribution ALG_BM25 args PNull (retouch boost (fun b => b) (fun t => t) r)
  = contribution ALG_BM25 args PNull r.
Proof.
  intros args r boost.
  apply (BM25_ignores_term_weights boost). intros b. reflexivity.
Defined.

(** X5: the DisMax scorer is a function of the tree's weights and
    frequencies and of the explain handle alone: with the same handle,
    replacing the term records (idf) of the tree, the index statistics and
    payload of the scorer arguments, the document metadata and the threshold
    changes nothing in the run, neither the score nor the operations on
    explain nodes. *)
Theorem DisMax_reads_weights_and_frequencies_only :
  forall (g : option RSQueryTerm -> option RSQueryTerm)
         (args : ScorerArgs) (stats' : IndexStats) (payload' : list Z)
         (r : IndexResult) (dmd dmd' : RSDocumentMetadata)
         (minScore minScore' : float),
    DisMax.DisMaxScorer args (retouch (fun b => b) (fun b => b) g r) dmd minScore
    = DisMax.DisMaxScorer
        {| indexStats := stats'; args_payload := payload'; explain := explain args |}
        r dmd' minScore'.
Proof.
  intros g args stats' payload' r dmd dmd' m m'. unfold DisMax.DisMaxScorer.
  cbn [explain]. generalize (explain args) as e. clear.
  induction r as [b t | b | b cs IH | b cs IH | b cs IH]
    using IndexResult_tree_ind; intros e; cbn [retouch]; try reflexivity.
  - cbn [DisMax.DisMaxScorer_node]. unfold DisMax.IntersectResult_DisMaxScorer.
    destruct (is_null e).
    + erewrite foldM_over_map; [reflexivity|].
      eapply Forall_impl; [|exact IH]. intros c Hc acc. cbn beta.
      rewrite Hc. reflexivity.
    + erewrite foldM_over_map; [reflexivity|].
      eapply Forall_impl; [|exact IH]. intros c Hc acc. cbn beta zeta.
      rewrite Hc. reflexivity.
  - cbn [DisMax.DisMaxScorer_node]. unfold DisMax.UnionResult_DisMaxScorer.
    destruct (is_null e).
    + erewrite foldM_over_map; [reflexivity|].
      eapply Forall_impl; [|exact IH]. intros c Hc acc. cbn beta.
      rewrite Hc. reflexivity.
    + erewrite foldM_over_map; [reflexivity|].
      eapply Forall_impl; [|exact IH]. intros c Hc acc. cbn beta zeta.
      rewrite Hc. reflexivity.
Qed.

End MoreScoringIndependence.

(** ** The Hamming count as a distance *)

Module HammingMetric.
Import Hamming HammingFacts.
Local Open Scope Z_scope.

Lemma byte_diff_sym (x y : Z) : byte_diff x y = byte_diff y x.
Proof.
  unfold byte_diff. f_equal. apply filter_ext_in_length.
  intros i _. apply xorb_comm.
Qed.

Lemma filter_length_triangle {A} (f g h : A -> bool) (l : list A) :
  (forall a, f a = true -> g a = true \/ h a = true) ->
  (Z.of_nat (List.length (filter f l))
   <= Z.of_nat (List.length (filter g l)) + Z.of_nat (List.length (filter h l))).
Proof.
  intros H. induction l as [|a l IH]; [cbn; lia|].
  cbn [filter]. specialize (H a).
  destruct (f a), (g a), (h a); cbn [List.length]; try lia.
  all: destruct H; [reflexivity | discriminate | discriminate].
Qed.

Lemma byte_diff_triangle (x y z : Z) :
  byte_diff x z <= byte_diff x y + byte_diff y z.
Proof.
  unfold byte_diff. apply filter_length_triangle. intros i.
  destruct (Z.testbit x (Z.of_nat i)), (Z.testbit y (Z.of_nat i)),
           (Z.testbit z (Z.of_nat i)); cbn; auto.
Qed.

Lemma filter_length_zero {A} (f : A -> bool) (l : list A) :
  List.length (filter f l) = O -> forall a, In a l -> f a = false.
Proof.
  induction l as [|x l IH]; intros H a Ha; [destruct Ha|].
  cbn [filter] in H. destruct (f x) eqn:E; [discriminate|].
  destruct Ha as [<- | Ha]; [exact E | apply IH; assumption].
Qed.

Lemma byte_diff_zero (x y : Z) :
  0 <= x < 256 -> 0 <= y < 256 -> byte_diff x y = 0 -> x = y.
Proof.
  intros Hx Hy H. unfold byte_diff in H.
  assert (Hl : forall i, In i (seq 0 8) ->
            xorb (Z.testbit x (Z.of_nat i)) (Z.testbit y (Z.of_nat i)) = false).
  { apply filter_length_zero. lia. }
  apply Z.bits_inj'. intros n Hn.
  destruct (Z_lt_le_dec n 8) as [Hlt | Hge].
  - specialize (Hl (Z.to_nat n)). rewrite Z2Nat.id in Hl by lia.
    apply xorb_eq, Hl, in_seq. lia.
  - rewrite <- (Z.mod_small x (2 ^ 8)), <- (Z.mod_small y (2 ^ 8)) by (cbn; lia).
    rewrite !Z.mod_pow2_bits_high by lia. reflexivity.
Qed.

Lemma bitsDiffering_sym (a b : list Z) : bitsDiffering a b = bitsDiffering b a.
Proof.
  revert b. induction a as [|x a IH]; intros [|y b]; try reflexivity.
  cbn [bitsDiffering]. rewrite byte_diff_sym, IH. reflexivity.
Qed.

Lemma bitsDiffering_zero (a b : list Z) :
  List.length a = List.length b -> bytes a -> bytes b ->
  bitsDiffering a b = 0 -> a = b.
Proof.
  revert b. induction a as [|x a IH]; intros [|y b] Hl Ha Hb H; try discriminate.
  - reflexivity.
  - injection Hl as Hl.
    apply Forall_cons_iff in Ha. destruct Ha as [Hx Ha].
    apply Forall_cons_iff in Hb. destruct Hb as [Hy Hb].
    cbn [bitsDiffering] in H.
    pose proof (byte_diff_range x y). pose proof (bitsDiffering_range a b Hl).
    assert (Exy : x = y) by (apply byte_diff_zero; try assumption; lia).
    assert (Eab : a = b) by (apply IH; try assumption; lia).
    rewrite Exy, Eab. reflexivity.
Qed.

Lemma bitsDiffering_triangle (a b c : list Z) :
  List.length a = List.length b -> List.length b = List.length c ->
  bitsDiffering a c <= bitsDiffering a b + bitsDiffering b c.
Proof.
  revert b c. induction a as [|x a IH]; intros [|y b] [|z c] H1 H2;
    try discriminate H1; try discriminate H2; [cbn; lia|].
  injection H1 as H1. injection H2 as H2. cbn [bitsDiffering].
  pose proof (byte_diff_triangle x y z). pose proof (IH b c H1 H2). lia.
Qed.

(** The loop is symmetric in its two buffers, with no bound on the
    length. *)
Lemma count_bits_sym (a b : list Z) (n : nat) : count_bits a b n = count_bits b a n.
Proof.
  unfold count_bits. apply WriterFacts.fold_left_ext_in.
  intros acc i _. rewrite Z.lxor_comm. reflexivity.
Qed.

End HammingMetric.

Section MoreHamming.
Import Num WriterFacts HammingFacts HammingMetric.

(** X6: the Hamming scorer is symmetric in the two payloads: scoring
    document payload [d] against query payload [q] gives the score of
    document payload [q] against query payload [d], for buffers of any
    lengths. *)
Theorem Hamming_symmetric :
  forall (args : ScorerArgs) (h : IndexResult) (dmd : RSDocumentMetadata)
         (minScore : float) (d q : list Z),
    value (Hamming.HammingDistanceScorer (with_args_payload args q) h
             (with_payload dmd (Some d)) minScore)
    = value (Hamming.HammingDistanceScorer (with_args_payload args d) h
               (with_payload dmd (Some q)) minScore).
Proof.
  intros args h dmd minScore d q.
  unfold Hamming.HammingDistanceScorer.
  cbn [with_args_payload with_payload payload args_payload explain].
  destruct (Nat.eq_dec (List.length d) (List.length q)) as [Hl | Hl].
  - rewrite Hl, Z.eqb_refl. cbn [negb]. rewrite orb_false_r.
    destruct (Z.of_nat (List.length q) =? 0)%Z; [reflexivity|].
    rewrite !value_bind. cbn [value ret fst].
    rewrite <- Hl at 1. rewrite (count_bits_sym q d). rewrite Hl. reflexivity.
  - assert (H1 : (Z.of_nat (List.length d) =? Z.of_nat (List.length q))%Z = false)
      by (apply Z.eqb_neq; lia).
    assert (H2 : (Z.of_nat (List.length q) =? Z.of_nat (List.length d))%Z = false)
      by (apply Z.eqb_neq; lia).
    rewrite H1, H2. cbn [negb]. rewrite !orb_true_r. reflexivity.
Qed.

(** X7: the bit count of the Hamming loop is a distance on byte buffers of
    one length: it is 0 exactly for identical buffers and obeys the
    triangle inequality. *)
Theorem Hamming_count_is_a_distance :
  forall (a b c : list Z),
    List.length a = List.length b -> List.length b = List.length c ->
    (8 * Z.of_nat (List.length a) < 2 ^ 64)%Z ->
    bytes a -> bytes b ->
    let n := List.length a in
    (Hamming.count_bits a b n = 0%Z <-> a = b)
    /\ (Hamming.count_bits a c n
        <= Hamming.count_bits a b n + Hamming.count_bits b c n)%Z.
Proof.
  intros a b c Hab Hbc Hlen Ha Hb n. subst n.
  assert (E1 := count_bits_spec a b Hab Hlen).
  assert (E2 : Hamming.count_bits a c (List.length a) = Hamming.bitsDiffering a c)
    by (apply count_bits_spec; lia).
  assert (E3 : Hamming.count_bits b c (List.length a) = Hamming.bitsDiffering b c)
    by (rewrite Hab; apply count_bits_spec; lia).
  rewrite E1, E2, E3.
  split.
  - split.
    + apply bitsDiffering_zero; assumption.
    + intros <-. apply bitsDiffering_same.
  - apply bitsDiffering_triangle; assumption.
Qed.

Lemma Hamming_count_is_a_distance_witness :
  (Hamming.count_bits [1; 2; 255] [3; 2; 0] 3 = 0 <-> [1; 2; 255] = [3; 2; 0])%Z
  /\ (Hamming.count_bits [1; 2; 255] [0; 0; 0] 3
      <= Hamming.count_bits [1; 2; 255] [3; 2; 0] 3
         + Hamming.count_bits [3; 2; 0] [0; 0; 0] 3)%Z.
Proof.
  apply (Hamming_count_is_a_distance [1; 2; 255]%Z [3; 2; 0]%Z [0; 0; 0]%Z);
    try reflexivity; repeat constructor; lia.
Defined.

End MoreHamming.

(* ===================================================================== *)
(** * Further properties of the expanders *)

Module ExpanderFrame.
Import Expander ExpanderFacts.
Local Open Scope Z_scope.

Section WithExternals.
Variables FieldSpec SynonymMap : Type.
Variable X : Externals FieldSpec SynonymMap.

Lemma with_expansions_eta (q : QueryExpander FieldSpec SynonymMap) :
  with_expansions q (expansions q) = q.
Proof. destruct q. reflexivity. Qed.

(** The token [SynonymExpander::Expand] emits for one group id. *)
Lemma synonym_loop (ids : list Z) (q : QueryExpander FieldSpec SynonymMap)
    (l : list Expansion) :
  fold_left (fun q' id => let '(buff, n) := IdToStr X id in ExpandToken buff n 0 q')
            ids (with_expansions q l)
  = with_expansions q
      (l ++ map (fun id => ExpToken (fst (IdToStr X id)) (snd (IdToStr X id)) 0) ids).
Proof.
  revert l. induction ids as [|id ids IH]; intros l.
  - cbn. rewrite app_nil_r. reflexivity.
  - cbn [fold_left map]. destruct (IdToStr X id) as [buff n] eqn:E.
    change (ExpandToken buff n 0 (with_expansions q l))
      with (with_expansions q (l ++ [ExpToken buff n 0])).
    rewrite IH, <- app_assoc. reflexivity.
Qed.

(** The group ids the synonym map holds for a token, none when there is
    no map or no group. *)
Lemma Synonym_state (token : RSToken) (q : QueryExpander FieldSpec SynonymMap) :
  SynonymExpander_Expand X token q
  = (REDISMODULE_OK,
     with_expansions q
       (expansions q
        ++ map (fun id => ExpToken (fst (IdToStr X id)) (snd (IdToStr X id)) 0)
             match smap (spec q) with
             | None => []
             | Some m =>
                 match GetIdsBySynonym X m (str token) (tok_len token) with
                 | None => []
                 | Some ids => ids
                 end
             end)).
Proof.
  unfold SynonymExpander_Expand.
  destruct (smap (spec q)) as [m|];
    [|cbn [map]; rewrite app_nil_r, with_expansions_eta; reflexivity].
  destruct (GetIdsBySynonym X m (str token) (tok_len token)) as [ids|];
    [|cbn [map]; rewrite app_nil_r, with_expansions_eta; reflexivity].
  rewrite <- (with_expansions_eta q) at 1. rewrite synonym_loop. reflexivity.
Qed.

Lemma Synonym_frame (token : RSToken) (q : QueryExpander FieldSpec SynonymMap) :
  SynonymExpander_Expand X token q
  = (REDISMODULE_OK,
     with_expansions q
       (expansions q ++ emitted (SynonymExpander_Expand X) token q)).
Proof.
  unfold emitted. rewrite (Synonym_state token (with_expansions q [])).
  rewrite Synonym_state. reflexivity.
Qed.

Lemma Phonetic_frame (token : RSToken) (q : QueryExpander FieldSpec SynonymMap) :
  PhoneticExpander_Expand X token q
  = (REDISMODULE_OK,
     with_expansions q
       (expansions q ++ emitted (PhoneticExpander_Expand X) token q)).
Proof.
  unfold emitted, PhoneticExpander_Expand.
  destruct (ExpandPhonetics X (str token) (tok_len token)) as [primary|].
  - reflexivity.
  - cbn. rewrite app_nil_r, with_expansions_eta. reflexivity.
Qed.

Lemma stem_and_emit_frame sb (token : RSToken)
    (q : QueryExpander FieldSpec SynonymMap) (l : list Expansion) :
  stem_and_emit X sb token (with_expansions q l)
  = with_expansions q
      (l ++ expansions (stem_and_emit X sb token (with_expansions q []))).
Proof.
  unfold stem_and_emit.
  destruct (sb _) as [stemmed|]; [|cbn; rewrite app_nil_r; reflexivity].
  match goal with |- context [if ?c then _ else _] => destruct c end.
  - unfold ExpandToken, emit, with_expansions. cbn.
    rewrite <- app_assoc. reflexivity.
  - reflexivity.
Qed.

(** The stemmer's new private data and what it emits depend on the
    language and the old private data only; the expansions so far are kept
    in front.  The state in which the call goes through a null pointer is
    left out. *)
Lemma Stemmer_frame (token : RSToken) (q : QueryExpander FieldSpec SynonymMap)
    (l : list Expansion) :
  ~ null_chinese q ->
  StemmerExpander_Expand X token (with_expansions q l)
  = (REDISMODULE_OK,
     with_expansions (snd (StemmerExpander_Expand X token (with_expansions q [])))
       (l ++ emitted (StemmerExpander_Expand X) token q)).
Proof.
  intros Hq. unfold emitted, StemmerExpander_Expand.
  cbn [with_expansions privdata language].
  destruct (privdata q) as [dd|] eqn:Hp.
  - destruct (isCn dd); [cbn; reflexivity|].
    destruct (latin dd) as [sb|]; [|cbn; rewrite app_nil_r; reflexivity].
    cbn [fst snd]. rewrite (stem_and_emit_frame sb token q l).
    rewrite (stem_and_emit_frame sb token q []). reflexivity.
  - destruct (language q) eqn:Hl; [exfalso; apply Hq; split; assumption|].
    cbn [isCn latin RSLanguage_ToString].
    destruct (sb_stemmer_new X name) as [sb|];
      [|cbn; rewrite app_nil_r; reflexivity].
    cbn [fst snd].
    change (with_privdata (with_expansions q l) ?d)
      with (with_expansions (with_privdata q d) l).
    change (with_privdata (with_expansions q []) ?d)
      with (with_expansions (with_privdata q d) []).
    rewrite (stem_and_emit_frame sb token _ l).
    rewrite (stem_and_emit_frame sb token _ []). reflexivity.
Qed.

(** What [DefaultExpander::Expand] comes to. *)
Lemma Default_state (token : RSToken) (q : QueryExpander FieldSpec SynonymMap) :
  let eS := emitted (SynonymExpander_Expand X) token q in
  let eP := if phonetic_runs X q
            then emitted (PhoneticExpander_Expand X) token q else [] in
  DefaultExpander_Expand X token q
  = if forced q && negb (phonetic_fields_valid X (spec q) (opts_fieldMask q))
    then (REDISMODULE_ERR,
          SetError QUERY_EINVAL "field does not support phonetics"
            (with_expansions q (expansions q ++ eS)))
    else (REDISMODULE_OK,
          snd (StemmerExpander_Expand X token
                 (with_expansions q (expansions q ++ eS ++ eP)))).
Proof.
  intros eS eP. unfold DefaultExpander_Expand.
  rewrite Synonym_frame. fold eS. cbn [snd].
  cbn [with_expansions spec opts_fieldMask].
  subst eP. unfold forced, phonetic_runs.
  destruct (opts_phonetic q).
  - cbn [andb].
    destruct (CheckPhoneticEnabled X (spec q) (opts_fieldMask q)).
    + rewrite Phonetic_frame. cbn [snd with_expansions expansions].
      rewrite <- app_assoc. reflexivity.
    + rewrite app_nil_r. reflexivity.
  - cbn [andb].
    destruct (phonetic_fields_valid X (spec q) (opts_fieldMask q)); cbn [negb].
    + rewrite Phonetic_frame. cbn [snd with_expansions expansions].
      rewrite <- app_assoc. reflexivity.
    + reflexivity.
  - cbn [andb].
    destruct (phonetic_fields_valid X (spec q) (opts_fieldMask q)); cbn [negb].
    + rewrite app_nil_r. reflexivity.
    + reflexivity.
Qed.

End WithExternals.

End ExpanderFrame.

Section MoreExpanders.
Import Expander ExpanderFacts ExpanderFrame.
Local Open Scope Z_scope.

(** X8: the synonym expander never fails and touches nothing but the
    expansion list: with no synonym map, or no group for the token, it
    leaves the expander as it was; otherwise it appends one token per group
    id, in the order of the ids, each with the text and length [IdToStr]
    gives for the id and flags 0. *)
Theorem synonym_expansion :
  forall (FieldSpec SynonymMap : Type) (X : Externals FieldSpec SynonymMap)
         (token : RSToken) (q : QueryExpander FieldSpec SynonymMap),
    (smap (spec q) = None -> SynonymExpander_Expand X token q = (REDISMODULE_OK, q))
    /\ (forall m, smap (spec q) = Some m ->
          GetIdsBySynonym X m (str token) (tok_len token) = None ->
          SynonymExpander_Expand X token q = (REDISMODULE_OK, q))
    /\ (forall m ids, smap (spec q) = Some m ->
          GetIdsBySynonym X m (str token) (tok_len token) = Some ids ->
          SynonymExpander_Expand X token q
          = (REDISMODULE_OK,
             with_expansions q
               (expansions q
                ++ map (fun id => ExpToken (fst (IdToStr X id)) (snd (IdToStr X id)) 0)
                     ids))).
Proof.
  intros FieldSpec SynonymMap X token q.
  rewrite (Synonym_state _ _ X token q).
  split; [|split].
  - intros ->. cbn [map]. rewrite app_nil_r, with_expansions_eta. reflexivity.
  - intros m -> ->. cbn [map]. rewrite app_nil_r, with_expansions_eta. reflexivity.
  - intros m ids -> ->. reflexivity.
Qed.

Lemma synonym_expansion_witness :
  SynonymExpander_Expand sample_externals (sample_token "car")
    (sample_query PHONETIC_DEFAULT 1)
  = (REDISMODULE_OK, sample_query PHONETIC_DEFAULT 1)
  /\ SynonymExpander_Expand sample_synonym_externals (sample_token "bus")
       (sample_synonym_query PHONETIC_DEFAULT 1)
     = (REDISMODULE_OK, sample_synonym_query PHONETIC_DEFAULT 1)
  /\ expansions (snd (SynonymExpander_Expand sample_synonym_externals
                        (sample_token "car")
                        (sample_synonym_query PHONETIC_DEFAULT 1)))
     = [ExpToken "auto" 4 0; ExpToken "~7" 2 0; ExpToken "~9" 2 0].
Proof.
  split; [|split].
  - apply (synonym_expansion bool unit sample_externals (sample_token "car")
             (sample_query PHONETIC_DEFAULT 1)). reflexivity.
  - destruct (synonym_expansion bool unit sample_synonym_externals
                (sample_token "bus") (sample_synonym_query PHONETIC_DEFAULT 1))
      as (_ & H & _).
    apply (H tt); reflexivity.
  - destruct (synonym_expansion bool unit sample_synonym_externals
                (sample_token "car") (sample_synonym_query PHONETIC_DEFAULT 1))
      as (_ & _ & H).
    rewrite (H tt [7; 9]) by reflexivity. reflexivity.
Defined.

(** X10: the default expander composes its steps in a fixed order: when
    it succeeds, what it emits is what the synonym expander emits, then
    what the phonetic expander emits if the phonetic step runs (mode forced
    on, or default mode with a phonetic field under the mask; never in the
    forced-off mode), then what the stemmer emits; when it fails, only the
    synonym tokens have been emitted. *)
Theorem default_expander_order :
  forall (FieldSpec SynonymMap : Type) (X : Externals FieldSpec SynonymMap)
         (token : RSToken) (q : QueryExpander FieldSpec SynonymMap),
    ~ null_chinese q ->
    let r := DefaultExpander_Expand X token q in
    (fst r = REDISMODULE_OK ->
     emitted (DefaultExpander_Expand X) token q
     = emitted (SynonymExpander_Expand X) token q
       ++ (if phonetic_runs X q
           then emitted (PhoneticExpander_Expand X) token q else [])
       ++ emitted (StemmerExpander_Expand X) token q)
    /\ (fst r = REDISMODULE_ERR ->
        emitted (DefaultExpander_Expand X) token q
        = emitted (SynonymExpander_Expand X) token q).
Proof.
  intros FieldSpec SynonymMap X token q Hq r. subst r.
  unfold emitted at 1 5.
  rewrite (Default_state _ _ X token q).
  rewrite (Default_state _ _ X token (with_expansions q [])).
  cbn zeta.
  change (forced (with_expansions q [])) with (forced q).
  change (phonetic_runs X (with_expansions q [])) with (phonetic_runs X q).
  cbn [with_expansions spec opts_fieldMask expansions app].
  set (eS := emitted (SynonymExpander_Expand X) token q).
  set (eP := if phonetic_runs X q
             then emitted (PhoneticExpander_Expand X) token q else []).
  change (emitted (SynonymExpander_Expand X) token (with_expansions q []))
    with eS.
  change (if phonetic_runs X q
          then emitted (PhoneticExpander_Expand X) token (with_expansions q [])
          else []) with eP.
  change (with_expansions (with_expansions q []) (eS ++ eP))
    with (with_expansions q (eS ++ eP)).
  destruct (forced q && negb (phonetic_fields_valid X (spec q) (opts_fieldMask q)));
    cbn [fst snd]; split; intros H; try discriminate H.
  - reflexivity.
  - rewrite (Stemmer_frame _ _ X token q (eS ++ eP) Hq).
    cbn [snd with_expansions expansions].
    rewrite <- app_assoc. reflexivity.
Qed.

Lemma default_expander_order_witness :
  let tok := sample_token "car" in
  emitted (DefaultExpander_Expand sample_synonym_externals) tok
    (sample_synonym_query PHONETIC_ENABLED 2)
  = [ExpToken "~7" 2 0; ExpToken "~9" 2 0] ++ [ExpToken "car" 3 0]
    ++ [ExpToken "+car" 4 0]
  /\ emitted (DefaultExpander_Expand sample_synonym_externals) tok
       (sample_synonym_query PHONETIC_DESABLED 2)
     = [ExpToken "~7" 2 0; ExpToken "~9" 2 0] ++ [] ++ [ExpToken "+car" 4 0]
  /\ emitted (DefaultExpander_Expand sample_synonym_externals) tok
       (sample_synonym_query PHONETIC_ENABLED 1)
     = [ExpToken "~7" 2 0; ExpToken "~9" 2 0].
Proof.
  intros tok.
  assert (Hq : forall mode mask, ~ null_chinese (sample_synonym_query mode mask))
    by (intros mode mask [_ H]; discriminate H).
  split; [|split].
  - destruct (default_expander_order bool unit sample_synonym_externals tok
                (sample_synonym_query PHONETIC_ENABLED 2) (Hq _ _)) as [H _].
    rewrite H by reflexivity. reflexivity.
  - destruct (default_expander_order bool unit sample_synonym_externals tok
                (sample_synonym_query PHONETIC_DESABLED 2) (Hq _ _)) as [H _].
    rewrite H by reflexivity. reflexivity.
  - destruct (default_expander_order bool unit sample_synonym_externals tok
                (sample_synonym_query PHONETIC_ENABLED 1) (Hq _ _)) as [_ H].
    rewrite H by reflexivity. reflexivity.
Defined.

(** X11: on an index whose field count fits the width of the field mask,
    and outside the state in which the stemmer calls through a null
    pointer, the default expander fails exactly when the phonetic mode is
    forced (on or off) and the field check does not pass; in the default
    mode it never fails.  A failure records the error and leaves the
    stemmer's private data untouched; a success leaves the error status
    untouched. *)
Theorem default_expander_failure :
  forall (FieldSpec SynonymMap : Type) (X : Externals FieldSpec SynonymMap)
         (token : RSToken) (q : QueryExpander FieldSpec SynonymMap),
    fields_fit X (spec q) ->
    ~ null_chinese q ->
    let r := DefaultExpander_Expand X token q in
    (fst r = REDISMODULE_ERR
     <-> forced q = true
         /\ phonetic_fields_valid X (spec q) (opts_fieldMask q) = false)
    /\ (opts_phonetic q = PHONETIC_DEFAULT -> fst r = REDISMODULE_OK)
    /\ (fst r = REDISMODULE_ERR ->
        qstatus (snd r)
        = Some (QUERY_EINVAL, "field does not support phonetics"%string)
        /\ privdata (snd r) = privdata q)
    /\ (fst r = REDISMODULE_OK -> qstatus (snd r) = qstatus q).
Proof.
  intros FieldSpec SynonymMap X token q _ Hq r. subst r.
  rewrite (Default_state _ _ X token q). cbn zeta.
  split; [|split; [|split]].
  - destruct (forced q), (phonetic_fields_valid X (spec q) (opts_fieldMask q));
      cbn; split; try discriminate; try tauto; intros [? ?]; discriminate.
  - intros Hm. unfold forced. rewrite Hm. reflexivity.
  - destruct (forced q && negb (phonetic_fields_valid X (spec q) (opts_fieldMask q)));
      cbn [fst]; intros H; [|discriminate H]. split; reflexivity.
  - destruct (forced q && negb (phonetic_fields_valid X (spec q) (opts_fieldMask q)));
      cbn [fst snd]; intros H; [discriminate H|].
    destruct (StemmerExpander_same_query _ _ X token
                (with_expansions q
                   (expansions q ++ emitted (SynonymExpander_Expand X) token q
                    ++ (if phonetic_runs X q
                        then emitted (PhoneticExpander_Expand X) token q else []))))
      as (_ & _ & _ & Hs); [exact Hq | exact Hs].
Qed.

Lemma default_expander_failure_witness :
  let tok := sample_token "car" in
  fst (DefaultExpander_Expand sample_synonym_externals tok
         (sample_synonym_query PHONETIC_DESABLED 1)) = REDISMODULE_ERR
  /\ fst (DefaultExpander_Expand sample_synonym_externals tok
            (sample_synonym_query PHONETIC_DEFAULT 1)) = REDISMODULE_OK
  /\ qstatus (snd (DefaultExpander_Expand sample_synonym_externals tok
                     (sample_synonym_query PHONETIC_ENABLED 2))) = None.
Proof.
  intros tok.
  assert (Hfit : forall mode mask,
            fields_fit sample_synonym_externals
              (spec (sample_synonym_query mode mask))).
  { intros mode mask. unfold fields_fit. cbn. lia. }
  assert (Hq : forall mode mask, ~ null_chinese (sample_synonym_query mode mask))
    by (intros mode mask [_ H]; discriminate H).
  split; [|split].
  - destruct (default_expander_failure bool unit sample_synonym_externals tok
                (sample_synonym_query PHONETIC_DESABLED 1) (Hfit _ _) (Hq _ _))
      as ([_ H] & _).
    apply H. split; reflexivity.
  - destruct (default_expander_failure bool unit sample_synonym_externals tok
                (sample_synonym_query PHONETIC_DEFAULT 1) (Hfit _ _) (Hq _ _))
      as (_ & H & _).
    apply H. reflexivity.
  - destruct (default_expander_failure bool unit sample_synonym_externals tok
                (sample_synonym_query PHONETIC_ENABLED 2) (Hfit _ _) (Hq _ _))
      as (_ & _ & _ & H).
    rewrite H; reflexivity.
Defined.

End MoreExpanders.

Module FieldMaskFacts.
Import Expander ExpanderFacts.
Local Open Scope Z_scope.

Section WithExternals.
Variables FieldSpec SynonymMap : Type.
Variable X : Externals FieldSpec SynonymMap.

Lemma land_pow2_zero (fm : Z) (ii : nat) :
  (Z.land fm (2 ^ Z.of_nat ii) =? 0) = negb (Z.testbit fm (Z.of_nat ii)).
Proof.
  destruct (Z.testbit fm (Z.of_nat ii)) eqn:E; cbn [negb].
  - apply Z.eqb_neq. intros H.
    assert (Hb : Z.testbit (Z.land fm (2 ^ Z.of_nat ii)) (Z.of_nat ii) = true).
    { rewrite Z.land_spec, E, Z.pow2_bits_true by lia. reflexivity. }
    rewrite H, Z.bits_0 in Hb. discriminate.
  - apply Z.eqb_eq.
    destruct (Z.eq_dec (Z.land fm (2 ^ Z.of_nat ii)) 0) as [H | H]; [exact H|].
    apply land_pow2_testbit in H. congruence.
Qed.

Lemma nth_error_in_combine_seq {A} (l : list A) (k i : nat) (x : A) :
  nth_error l i = Some x -> In ((k + i)%nat, x) (combine (seq k (List.length l)) l).
Proof.
  revert k i. induction l as [|a l IH]; intros k i H; [destruct i; discriminate|].
  cbn [List.length seq combine]. destruct i as [|i]; cbn in H.
  - injection H as <-. left. rewrite Nat.add_0_r. reflexivity.
  - right. replace (k + S i)%nat with (S k + i)%nat by lia. apply IH. exact H.
Qed.

Lemma validity_loop {A} (c : A -> bool) (step : bool -> A -> bool) (l : list A) (b : bool) :
  (forall acc a, step acc a = if c a then true else acc) ->
  fold_left step l b = b || existsb c l.
Proof.
  intros Hstep. revert b. induction l as [|a l IH]; intros b.
  - cbn. rewrite orb_false_r. reflexivity.
  - cbn [fold_left existsb]. rewrite IH, Hstep.
    destruct (c a), b; reflexivity.
Qed.

End WithExternals.

End FieldMaskFacts.

Section MoreExpanderSteps.
Import Expander ExpanderFacts ExpanderFrame FieldMaskFacts.
Local Open Scope Z_scope.

(** X12: what the forced-mode field check decides, on an index whose
    field count fits the width of the field mask.  Under the all-fields
    mask it passes exactly when the index carries the has-phonetic flag;
    under any other mask it passes exactly when some field of the index has
    its bit set in the mask and is phonetic. *)
Theorem phonetic_fields_valid_iff :
  forall (FieldSpec SynonymMap : Type) (X : Externals FieldSpec SynonymMap)
         (sp : IndexSpec FieldSpec SynonymMap) (fm : Z),
    fields_fit X sp ->
    (fm = RS_FIELDMASK_ALL X ->
     (phonetic_fields_valid X sp fm = true
      <-> Z.land (spec_flags sp) (Index_HasPhonetic X) <> 0))
    /\ (fm <> RS_FIELDMASK_ALL X ->
        (phonetic_fields_valid X sp fm = true
         <-> exists ii fs,
               nth_error (fields sp) ii = Some fs
               /\ Z.testbit fm (Z.of_nat ii) = true
               /\ IsPhonetics X fs = true)).
Proof.
  intros FieldSpec SynonymMap X sp fm Hfit.
  assert (Hin_range : forall ii fs, nth_error (fields sp) ii = Some fs ->
                        Z.of_nat ii < t_fieldMask_bits X).
  { intros ii fs Hn.
    assert (Hlen : (ii < List.length (fields sp))%nat)
      by (apply nth_error_Some; rewrite Hn; discriminate).
    unfold fields_fit in Hfit. lia. }
  unfold phonetic_fields_valid. split.
  - intros ->. rewrite Z.eqb_refl.
    rewrite negb_true_iff, Z.eqb_neq. tauto.
  - intros Hne. apply Z.eqb_neq in Hne. rewrite Hne.
    rewrite (validity_loop
               (fun p : nat * FieldSpec =>
                  negb (Z.land fm (field_bit X (fst p)) =? 0)
                  && IsPhonetics X (snd p))).
    2:{ intros acc [ii fs]. cbn [fst snd].
        destruct (Z.land fm (field_bit X ii) =? 0), (IsPhonetics X fs); reflexivity. }
    cbn [orb]. rewrite existsb_exists. split.
    + intros ([ii fs] & Hin & Hc). cbn [fst snd] in Hc.
      apply andb_true_iff in Hc. destruct Hc as [Hbit Hph].
      apply negb_true_iff in Hbit.
      destruct (in_combine_seq _ _ _ _ Hin) as [_ Hn]. rewrite Nat.sub_0_r in Hn.
      rewrite (field_bit_in_range _ _ X ii (Hin_range ii fs Hn)) in Hbit.
      rewrite land_pow2_zero in Hbit. apply negb_false_iff in Hbit.
      exists ii, fs. auto.
    + intros (ii & fs & Hn & Hbit & Hph).
      exists (ii, fs). split.
      * apply (nth_error_in_combine_seq _ 0%nat ii fs Hn).
      * cbn [fst snd].
        rewrite (field_bit_in_range _ _ X ii (Hin_range ii fs Hn)).
        rewrite land_pow2_zero, Hbit, Hph. reflexivity.
Qed.

Lemma phonetic_fields_valid_iff_witness :
  (phonetic_fields_valid sample_externals (spec (sample_query PHONETIC_ENABLED 2)) 2
   = true)
  /\ (phonetic_fields_valid sample_externals (spec (sample_query PHONETIC_ENABLED 1)) 1
      = true -> False)
  /\ (phonetic_fields_valid sample_externals (spec (sample_query PHONETIC_ENABLED 1))
        (2 ^ 64 - 1) = true).
Proof.
  assert (Hfit : forall mode mask,
            fields_fit sample_externals (spec (sample_query mode mask))).
  { intros mode mask. unfold fields_fit. cbn. lia. }
  split; [|split].
  - destruct (phonetic_fields_valid_iff bool unit sample_externals
                (spec (sample_query PHONETIC_ENABLED 2)) 2 (Hfit _ _)) as [_ H].
    apply H; [discriminate|].
    exists 1%nat, true. repeat split.
  - destruct (phonetic_fields_valid_iff bool unit sample_externals
                (spec (sample_query PHONETIC_ENABLED 1)) 1 (Hfit _ _)) as [_ H].
    intros Hv. apply H in Hv; [|discriminate].
    destruct Hv as (ii & fs & Hn & Hbit & Hph).
    destruct ii as [|[|ii]]; cbn in Hn.
    + injection Hn as <-. discriminate Hph.
    + discriminate Hbit.
    + destruct ii; discriminate Hn.
  - destruct (phonetic_fields_valid_iff bool unit sample_externals
                (spec (sample_query PHONETIC_ENABLED 1)) (2 ^ 64 - 1) (Hfit _ _))
      as [H _].
    apply H; [reflexivity | discriminate].
Defined.

Lemma stem_and_emit_privdata {FieldSpec SynonymMap : Type}
    (X : Externals FieldSpec SynonymMap) sb token
    (q : QueryExpander FieldSpec SynonymMap) :
  privdata (stem_and_emit X sb token q) = privdata q.
Proof.
  unfold stem_and_emit. destruct (sb _); [|reflexivity].
  match goal with |- context [if ?c then _ else _] => destruct c end; reflexivity.
Qed.

Lemma stem_and_emit_prefix_only {FieldSpec SynonymMap : Type}
    (X X' : Externals FieldSpec SynonymMap) sb token
    (q : QueryExpander FieldSpec SynonymMap) :
  STEM_PREFIX X' = STEM_PREFIX X ->
  stem_and_emit X' sb token q = stem_and_emit X sb token q.
Proof. intros H. unfold stem_and_emit. rewrite H. reflexivity. Qed.

(** X13: the Snowball handle is created once per query and reused: the
    first call on a non-Chinese query without private data stores the
    handle [sb_stemmer_new] returns for the language; every later call
    works from the stored handle, whatever [sb_stemmer_new] (or the Chinese
    tokenizer) would now return, and keeps it stored. *)
Theorem stemmer_handle_cached :
  forall (FieldSpec SynonymMap : Type) (X X' : Externals FieldSpec SynonymMap)
         (name : string) (token token' : RSToken)
         (q : QueryExpander FieldSpec SynonymMap),
    privdata q = None -> language q = RS_LANG_OTHER name ->
    STEM_PREFIX X' = STEM_PREFIX X ->
    let q1 := snd (StemmerExpander_Expand X token q) in
    privdata q1 = Some {| isCn := false; latin := sb_stemmer_new X name;
                          tokenizer := false; tokens := [] |}
    /\ StemmerExpander_Expand X' token' q1 = StemmerExpander_Expand X token' q1
    /\ privdata (snd (StemmerExpander_Expand X token' q1)) = privdata q1.
Proof.
  intros FieldSpec SynonymMap X X' name token token' q Hp Hl Hpre q1.
  assert (H1 : privdata q1 = Some {| isCn := false; latin := sb_stemmer_new X name;
                                     tokenizer := false; tokens := [] |}).
  { subst q1. unfold StemmerExpander_Expand. rewrite Hp, Hl.
    cbn [RSLanguage_ToString isCn latin].
    destruct (sb_stemmer_new X name); cbn [snd];
      [rewrite stem_and_emit_privdata|]; reflexivity. }
  split; [exact H1|]. clearbody q1.
  unfold StemmerExpander_Expand. rewrite H1. cbn [isCn latin].
  destruct (sb_stemmer_new X name) as [sb|]; cbn [snd].
  - split; [rewrite (stem_and_emit_prefix_only X X') by assumption; reflexivity|].
    rewrite stem_and_emit_privdata. exact H1.
  - split; [reflexivity | exact H1].
Qed.

Lemma stemmer_handle_cached_witness :
  let X' := with_sb_stemmer_new sample_externals (fun _ => None) in
  let q1 := snd (StemmerExpander_Expand sample_externals (sample_token "sun")
                   (sample_query PHONETIC_DEFAULT 1)) in
  expansions (snd (StemmerExpander_Expand X' (sample_token "running") q1))
  = [ExpToken "+sun" 4 0; ExpToken "+run" 4 0; ExpToken "run" 3 0].
Proof.
  intros X' q1.
  destruct (stemmer_handle_cached bool unit sample_externals X' "english"
              (sample_token "sun") (sample_token "running")
              (sample_query PHONETIC_DEFAULT 1) eq_refl eq_refl eq_refl)
    as (_ & H & _).
  fold q1 in H. rewrite H. reflexivity.
Defined.

(** X14: no stem, no token, no error.  When Snowball has no stemmer for
    the language, the first call stores that fact and emits nothing, and
    no later call emits anything either; when a stored stemmer fails on a
    token, the expander is left exactly as it was. *)
Theorem stemmer_silent_without_stem :
  forall (FieldSpec SynonymMap : Type) (X : Externals FieldSpec SynonymMap)
         (token : RSToken) (q : QueryExpander FieldSpec SynonymMap),
    (forall name, privdata q = None -> language q = RS_LANG_OTHER name ->
       sb_stemmer_new X name = None ->
       StemmerExpander_Expand X token q
       = (REDISMODULE_OK,
          with_privdata q (Some {| isCn := false; latin := None;
                                   tokenizer := false; tokens := [] |}))
       /\ forall token',
            StemmerExpander_Expand X token'
              (snd (StemmerExpander_Expand X token q))
            = StemmerExpander_Expand X token q)
    /\ (forall dd sb, privdata q = Some dd -> isCn dd = false ->
          latin dd = Some sb ->
          sb (substring 0 (tok_len token) (str token)) = None ->
          StemmerExpander_Expand X token q = (REDISMODULE_OK, q)).
Proof.
  intros FieldSpec SynonymMap X token q. split.
  - intros name Hp Hl Hnew.
    assert (H1 : StemmerExpander_Expand X token q
                 = (REDISMODULE_OK,
                    with_privdata q (Some {| isCn := false; latin := None;
                                             tokenizer := false; tokens := [] |}))).
    { unfold StemmerExpander_Expand. rewrite Hp, Hl.
      cbn [RSLanguage_ToString isCn latin]. rewrite Hnew. reflexivity. }
    split; [exact H1|]. intros token'. rewrite H1. reflexivity.
  - intros dd sb Hp Hcn Hlat Hfail.
    unfold StemmerExpander_Expand. rewrite Hp, Hcn, Hlat.
    unfold stem_and_emit. rewrite Hfail. reflexivity.
Qed.

Lemma stemmer_silent_without_stem_witness :
  let q := {| language := RS_LANG_OTHER "klingon"; privdata := None;
              spec := {| spec_flags := 0; fields := [false]; smap := None |};
              opts_phonetic := PHONETIC_DEFAULT; opts_fieldMask := 1;
              qstatus := None; expansions := [ExpToken "auto" 4 0] |} in
  expansions (snd (StemmerExpander_Expand sample_externals (sample_token "running") q))
  = [ExpToken "auto" 4 0]
  /\ expansions
       (snd (StemmerExpander_Expand sample_externals (sample_token "sun")
               (snd (StemmerExpander_Expand sample_externals
                       (sample_token "running") q))))
     = [ExpToken "auto" 4 0].
Proof.
  intros q.
  destruct (stemmer_silent_without_stem bool unit sample_externals
              (sample_token "running") q) as [H _].
  destruct (H "klingon"%string eq_refl eq_refl eq_refl) as [H1 H2].
  split.
  - rewrite H1. reflexivity.
  - rewrite (H2 (sample_token "sun")), H1. reflexivity.
Defined.

Lemma StemmerExpander_non_chinese {FieldSpec SynonymMap : Type}
    (X : Externals FieldSpec SynonymMap) (f : string -> nat -> list (string * nat))
    token (q : QueryExpander FieldSpec SynonymMap) :
  non_chinese q ->
  StemmerExpander_Expand (with_cn_tokenize X f) token q
  = StemmerExpander_Expand X token q
  /\ exists dd, privdata (snd (StemmerExpander_Expand X token q)) = Some dd
                /\ isCn dd = false.
Proof.
  intros [(dd & Hp & Hcn) | (name & Hp & Hl)]; unfold StemmerExpander_Expand.
  - rewrite Hp, Hcn. split; [reflexivity|].
    destruct (latin dd) as [sb|]; cbn [snd];
      exists dd; [rewrite stem_and_emit_privdata|]; auto.
  - rewrite Hp, Hl. split; [reflexivity|].
    cbn [RSLanguage_ToString isCn latin].
    destruct (sb_stemmer_new X name) as [sb|]; cbn [snd]; eexists;
      [rewrite stem_and_emit_privdata|]; split; reflexivity.
Qed.

(** X15: a query that is not Chinese never reaches the Chinese tokenizer.
    Started on private data that says not Chinese, or on none yet with a
    language other than Chinese, the stemmer expander called on any
    sequence of tokens gives the result it would give with any other
    Chinese tokenizer in place, and leaves a state of the same kind: after
    the first call there is private data, it carries [isCn = false] (the
    flag the expander writes when it creates the data), and no later call
    changes the flag. *)
Theorem stemmer_language_routing :
  forall (FieldSpec SynonymMap : Type) (X : Externals FieldSpec SynonymMap)
         (f : string -> nat -> list (string * nat))
         (tokens : list RSToken) (q : QueryExpander FieldSpec SynonymMap),
    non_chinese q ->
    expand_tokens (with_cn_tokenize X f) tokens q = expand_tokens X tokens q
    /\ non_chinese (expand_tokens X tokens q)
    /\ (tokens <> [] ->
        exists dd, privdata (expand_tokens X tokens q) = Some dd
                   /\ isCn dd = false).
Proof.
  intros FieldSpec SynonymMap X f tokens. unfold expand_tokens.
  induction tokens as [|token tokens IH]; intros q Hq.
  - cbn [fold_left]. split; [reflexivity|]. split; [exact Hq|].
    intros H. congruence.
  - cbn [fold_left].
    destruct (StemmerExpander_non_chinese X f token q Hq) as (E & Hfirst).
    rewrite E.
    assert (Hq1 : non_chinese (snd (StemmerExpander_Expand X token q)))
      by (left; exact Hfirst).
    destruct (IH _ Hq1) as (E1 & Hn & Hsome).
    split; [exact E1|]. split; [exact Hn|]. intros _.
    destruct tokens as [|t ts].
    + cbn [fold_left]. exact Hfirst.
    + apply Hsome. discriminate.
Qed.

Lemma stemmer_language_routing_witness :
  let X' := with_cn_tokenize sample_externals (fun w n => [(w, n)]) in
  let tokens := [sample_token "running"; sample_token "sun"] in
  expansions (expand_tokens X' tokens (sample_query PHONETIC_DEFAULT 1))
  = [ExpToken "+run" 4 0; ExpToken "run" 3 0; ExpToken "+sun" 4 0].
Proof.
  intros X' tokens.
  assert (Hq : non_chinese (sample_query PHONETIC_DEFAULT 1)).
  { right. exists "english"%string. split; reflexivity. }
  destruct (stemmer_language_routing bool unit sample_externals
              (fun w n => [(w, n)]) tokens (sample_query PHONETIC_DEFAULT 1) Hq)
    as (H & _).
  fold X' in H. rewrite H. reflexivity.
Defined.

End MoreExpanderSteps.
